(** * containers.hpp: Stack, RingBuffer and Result

    A shallow embedding of [namespace containers] of
    [demo/src/containers.hpp], followed by the laws its specification
    states about it.

    Every member function is a computation over the state of the object
    it is called on.  A call ends in one of three ways: it returns, an
    exception leaves it, or it has undefined behaviour (an index outside
    a [std::array], [back()] of an empty [std::vector], [%] by zero).
    The state carried by [Throws] is the state of the object at the
    [throw], so an operation that mutated before failing would show.

    The free functions of [yoda.hpp] and [algorithms.hpp] follow, with
    their loops run on an explicit number of passes. *)

From Stdlib Require Import ZArith Lia String.
From stdpp Require Import base list sorting.

Local Open Scope Z_scope.

(** ** The C++ fragment the header is written in *)

Module Cxx.

(** [std::size_t]: an unsigned integer of [size_t_bits] bits, held as a
    [Z] in [0, size_t_modulus); arithmetic wraps. *)
Definition size_t_bits : Z := 64.
Definition size_t_modulus : Z := 2 ^ size_t_bits.
Definition wrap (z : Z) : Z := z mod size_t_modulus.

(** The exception classes the header declares or inherits from. *)
Inductive exception_class : Type :=
| std_exception
| std_runtime_error
| std_bad_variant_access
| ContainerError
| BufferOverflow
| BufferUnderflow.

Definition exception_class_eqb (a b : exception_class) : bool :=
  match a, b with
  | std_exception, std_exception
  | std_runtime_error, std_runtime_error
  | std_bad_variant_access, std_bad_variant_access
  | ContainerError, ContainerError
  | BufferOverflow, BufferOverflow
  | BufferUnderflow, BufferUnderflow => true
  | _, _ => false
  end.

(** [class ContainerError : public std::runtime_error],
    [class BufferOverflow : public ContainerError],
    [class BufferUnderflow : public ContainerError]. *)
Definition base_class (c : exception_class) : option exception_class :=
  match c with
  | std_exception => None
  | std_runtime_error => Some std_exception
  | std_bad_variant_access => Some std_exception
  | ContainerError => Some std_runtime_error
  | BufferOverflow => Some ContainerError
  | BufferUnderflow => Some ContainerError
  end.

(** The exception objects the header throws.  Each is built by a
    constructor without arguments, so the object is its class. *)
Inductive exn : Type :=
| throw_BufferOverflow       (* throw BufferOverflow()      *)
| throw_BufferUnderflow      (* throw BufferUnderflow()     *)
| throw_bad_variant_access.  (* thrown by std::get          *)

Definition dynamic_class (e : exn) : exception_class :=
  match e with
  | throw_BufferOverflow => BufferOverflow
  | throw_BufferUnderflow => BufferUnderflow
  | throw_bad_variant_access => std_bad_variant_access
  end.

(** [derives_from fuel c h]: [h] is [c] or a base of [c]. *)
Fixpoint derives_from (fuel : nat) (c h : exception_class) : bool :=
  exception_class_eqb c h ||
  match fuel with
  | O => false
  | S fuel' =>
      match base_class c with
      | Some b => derives_from fuel' b h
      | None => false
      end
  end.

(** [catch (const h&)] takes the exception [e]. *)
Definition catches (h : exception_class) (e : exn) : bool :=
  derives_from 4 (dynamic_class e) h.

(** [what()].  The text of [std::bad_variant_access] belongs to the
    standard library and is a parameter. *)
Definition what (bad_variant_access_what : string) (e : exn) : string :=
  match e with
  | throw_BufferOverflow => "buffer overflow: container is full"
  | throw_BufferUnderflow => "buffer underflow: container is empty"
  | throw_bad_variant_access => bad_variant_access_what
  end.

(** How a call on an object of state [S] ends. *)
Inductive outcome (S A : Type) : Type :=
| Returns (a : A) (s : S)
| Throws (e : exn) (s : S)
| Undefined.
Arguments Returns {S A} a s.
Arguments Throws {S A} e s.
Arguments Undefined {S A}.

Definition M (S A : Type) : Type := S -> outcome S A.

Definition ret {S A} (a : A) : M S A := fun s => Returns a s.
Definition bind {S A B} (m : M S A) (f : A -> M S B) : M S B :=
  fun s =>
    match m s with
    | Returns a s' => f a s'
    | Throws e s' => Throws e s'
    | Undefined => Undefined
    end.
Definition throw {S A} (e : exn) : M S A := fun s => Throws e s.
Definition undefined {S A} : M S A := fun _ => Undefined.
Definition gets {S A} (f : S -> A) : M S A := fun s => Returns (f s) s.
Definition modify {S} (f : S -> S) : M S unit := fun s => Returns tt (f s).

(** The state a caller holds after a call: the object lives on when
    the call returns and when the caller catches what it threw. *)
Definition state_after {S A} (o : outcome S A) : option S :=
  match o with
  | Returns _ s => Some s
  | Throws _ s => Some s
  | Undefined => None
  end.

(** [a % b] on unsigned operands. *)
Definition umod {S} (a b : Z) : M S Z :=
  if b =? 0 then undefined else ret (a mod b).

(** [arr[i]] of a [std::array]: no bounds check, undefined outside the
    array. *)
Definition in_bounds {T} (arr : list T) (i : Z) : bool :=
  (0 <=? i) && (i <? Z.of_nat (length arr)).

Definition array_get {S T} (arr : list T) (i : Z) : M S T :=
  match arr !! Z.to_nat i with
  | Some x => if in_bounds arr i then ret x else undefined
  | None => undefined
  end.

Definition array_set {S T} (arr : list T) (i : Z) (x : T) : M S (list T) :=
  if in_bounds arr i then ret (<[Z.to_nat i := x]> arr) else undefined.

(** [std::vector<T>], first element first: [push_back] appends,
    [back()] is the last element, [pop_back()] drops it; both are
    undefined on an empty vector. *)
Definition vector_empty {T} (v : list T) : bool :=
  match v with [] => true | _ :: _ => false end.

Definition vector_push_back {T} (v : list T) (x : T) : list T := v ++ [x].

Definition vector_back {S T} (v : list T) : M S T :=
  match last v with
  | Some x => ret x
  | None => undefined
  end.

Definition vector_pop_back {S T} (v : list T) : M S (list T) :=
  match v with
  | [] => undefined
  | _ :: _ => ret (removelast v)
  end.

(** [std::variant<T, E>] holding its first or its second alternative;
    [std::get] of the other one throws [std::bad_variant_access]. *)
Inductive variant (T E : Type) : Type :=
| holds_T (value : T)
| holds_E (error : E).
Arguments holds_T {T E} value.
Arguments holds_E {T E} error.

Definition holds_alternative_T {T E} (v : variant T E) : bool :=
  match v with holds_T _ => true | holds_E _ => false end.

Definition get_T {S T E} (v : variant T E) : M S T :=
  match v with
  | holds_T x => ret x
  | holds_E _ => throw throw_bad_variant_access
  end.

Definition get_E {S T E} (v : variant T E) : M S E :=
  match v with
  | holds_T _ => throw throw_bad_variant_access
  | holds_E x => ret x
  end.

End Cxx.

Notation "'do' x <- m ; k" := (Cxx.bind m (fun x => k))
  (at level 10, x name, m at level 99, k at level 200,
   format "'[v' 'do'  x  <-  m ; '/' k ']'").

Import Cxx (Returns, Throws, Undefined, ret, throw, gets, modify).

(** ** [template <typename T> class Stack] *)

Module Stack.
Section Stack.
Variable T : Type.

Record object : Type := { data_ : list T }.

(** A default-constructed stack. *)
Definition init : object := {| data_ := [] |}.

Definition push (value : T) : Cxx.M object unit :=
  modify (fun s => {| data_ := Cxx.vector_push_back (data_ s) value |}).

Definition pop : Cxx.M object T :=
  do e <- gets (fun s => Cxx.vector_empty (data_ s));
  if e then throw Cxx.throw_BufferUnderflow else
  do d <- gets data_;
  do val <- Cxx.vector_back d;
  do d <- gets data_;
  do d' <- Cxx.vector_pop_back d;
  do _ <- modify (fun _ => {| data_ := d' |});
  ret val.

Definition top : Cxx.M object T :=
  do e <- gets (fun s => Cxx.vector_empty (data_ s));
  if e then throw Cxx.throw_BufferUnderflow else
  do d <- gets data_;
  Cxx.vector_back d.

Definition empty : Cxx.M object bool :=
  gets (fun s => Cxx.vector_empty (data_ s)).

(** [data_.size()]: the element count, which a vector keeps
    representable in [std::size_t]. *)
Definition size : Cxx.M object Z :=
  gets (fun s => Z.of_nat (length (data_ s))).

Definition clear : Cxx.M object unit :=
  modify (fun _ => {| data_ := [] |}).

(** A caller's sequence of pushes and pops, and what it gets back. *)
Inductive call : Type := Push (value : T) | Pop.
Inductive reply : Type := Pushed | Popped (value : T).

Definition exec (c : call) : Cxx.M object reply :=
  match c with
  | Push v => do _ <- push v; ret Pushed
  | Pop => do v <- pop; ret (Popped v)
  end.

Fixpoint run (cs : list call) : Cxx.M object (list reply) :=
  match cs with
  | [] => ret []
  | c :: cs' => do r <- exec c; do rs <- run cs'; ret (r :: rs)
  end.

Definition popped (rs : list reply) : list T :=
  omap (fun r => match r with Popped v => Some v | Pushed => None end) rs.

Definition is_push (c : call) : bool :=
  match c with Push _ => true | Pop => false end.
Definition is_pop (c : call) : bool :=
  match c with Pop => true | Push _ => false end.
Definition pushes (cs : list call) : nat := length (List.filter is_push cs).
Definition pops (cs : list call) : nat := length (List.filter is_pop cs).

(** Every pop of [cs] is made when [empty()] answers false.  Nothing is
    asked of the calls that follow one with undefined behaviour. *)
Definition allowed (c : call) (s : object) : bool :=
  match c with
  | Push _ => true
  | Pop =>
      match empty s with
      | Returns e _ => negb e
      | _ => false
      end
  end.

Fixpoint guarded (cs : list call) (s : object) : bool :=
  match cs with
  | [] => true
  | c :: cs' =>
      allowed c s &&
      match Cxx.state_after (exec c s) with
      | Some s' => guarded cs' s'
      | None => true
      end
  end.

(** The LIFO discipline in the specification's words: a pop hands back
    the most recently pushed value that no pop has taken yet.
    [pending] lists those values, the most recent first. *)
Fixpoint lifo_pops (cs : list call) (pending : list T) : list T :=
  match cs with
  | [] => []
  | Push v :: cs' => lifo_pops cs' (v :: pending)
  | Pop :: cs' =>
      match pending with
      | v :: pending' => v :: lifo_pops cs' pending'
      | [] => lifo_pops cs' []
      end
  end.
End Stack.
Arguments data_ {T} _.
Arguments init {T}.
Arguments push {T} value _.
Arguments pop {T} _.
Arguments top {T} _.
Arguments empty {T} _.
Arguments size {T} _.
Arguments clear {T} _.
Arguments Push {T} value.
Arguments Pop {T}.
Arguments Pushed {T}.
Arguments Popped {T} value.
Arguments exec {T} c _.
Arguments run {T} cs _.
Arguments popped {T} rs.
Arguments is_push {T} c.
Arguments is_pop {T} c.
Arguments pushes {T} cs.
Arguments pops {T} cs.
Arguments allowed {T} c s.
Arguments guarded {T} cs s.
Arguments lifo_pops {T} cs pending.
End Stack.

(** ** [template <typename T, std::size_t N> class RingBuffer] *)

Module RingBuffer.
Section RingBuffer.
Variable T : Type.
(** The template argument [N], a [std::size_t]. *)
Variable N : Z.

Record object : Type :=
  { buf_ : list T;   (* std::array<T, N> *)
    head_ : Z;
    tail_ : Z;
    size_ : Z }.

Definition set_buf (b : list T) (rb : object) : object :=
  {| buf_ := b; head_ := head_ rb; tail_ := tail_ rb; size_ := size_ rb |}.
Definition set_head (h : Z) (rb : object) : object :=
  {| buf_ := buf_ rb; head_ := h; tail_ := tail_ rb; size_ := size_ rb |}.
Definition set_tail (t : Z) (rb : object) : object :=
  {| buf_ := buf_ rb; head_ := head_ rb; tail_ := t; size_ := size_ rb |}.
Definition set_size (n : Z) (rb : object) : object :=
  {| buf_ := buf_ rb; head_ := head_ rb; tail_ := tail_ rb; size_ := n |}.

(** [RingBuffer() = default]: [buf_{}] value-initialises the [N]
    slots to [T()], the indices and the count start at zero. *)
Definition init (T_default : T) : object :=
  {| buf_ := replicate (Z.to_nat N) T_default;
     head_ := 0; tail_ := 0; size_ := 0 |}.

Definition empty : Cxx.M object bool := gets (fun rb => size_ rb =? 0).
Definition full : Cxx.M object bool := gets (fun rb => size_ rb =? N).
Definition size : Cxx.M object Z := gets size_.
Definition capacity : Cxx.M object Z := ret N.

Definition write (value : T) : Cxx.M object unit :=
  do f <- full;
  if f then throw Cxx.throw_BufferOverflow else
  (* buf_[tail_] = value; *)
  do b <- gets buf_;
  do t <- gets tail_;
  do b' <- Cxx.array_set b t value;
  do _ <- modify (set_buf b');
  (* tail_ = (tail_ + 1) % N; *)
  do t <- gets tail_;
  do t' <- Cxx.umod (Cxx.wrap (t + 1)) N;
  do _ <- modify (set_tail t');
  (* ++size_; *)
  do n <- gets size_;
  modify (set_size (Cxx.wrap (n + 1))).

Definition read : Cxx.M object T :=
  do e <- empty;
  if e then throw Cxx.throw_BufferUnderflow else
  (* T val = buf_[head_]; *)
  do b <- gets buf_;
  do h <- gets head_;
  do val <- Cxx.array_get b h;
  (* head_ = (head_ + 1) % N; *)
  do h <- gets head_;
  do h' <- Cxx.umod (Cxx.wrap (h + 1)) N;
  do _ <- modify (set_head h');
  (* --size_; *)
  do n <- gets size_;
  do _ <- modify (set_size (Cxx.wrap (n - 1)));
  ret val.

(** The public operations, and what each hands back. *)
Inductive call : Type :=
| Write (value : T) | Read | Empty | Full | Size | Capacity.
Inductive reply : Type :=
| Written | Got (value : T) | Flag (b : bool) | Count (n : Z).

Definition exec (c : call) : Cxx.M object reply :=
  match c with
  | Write v => do _ <- write v; ret Written
  | Read => do v <- read; ret (Got v)
  | Empty => do b <- empty; ret (Flag b)
  | Full => do b <- full; ret (Flag b)
  | Size => do n <- size; ret (Count n)
  | Capacity => do n <- capacity; ret (Count n)
  end.

Fixpoint run (cs : list call) : Cxx.M object (list reply) :=
  match cs with
  | [] => ret []
  | c :: cs' => do r <- exec c; do rs <- run cs'; ret (r :: rs)
  end.

Definition written (cs : list call) : list T :=
  omap (fun c => match c with Write v => Some v | _ => None end) cs.
Definition got (rs : list reply) : list T :=
  omap (fun r => match r with Got v => Some v | _ => None end) rs.

(** The states of an object a program can hold: the constructed one and
    those left by the calls made on it. *)
Inductive reachable (T_default : T) : object -> Prop :=
| reachable_init : reachable T_default (init T_default)
| reachable_call rb c rb' :
    reachable T_default rb ->
    Cxx.state_after (exec c rb) = Some rb' ->
    reachable T_default rb'.

(** Every write of [cs] is made when [full()] answers false and every
    read when [empty()] answers false.  Nothing is asked of the calls
    that follow one with undefined behaviour. *)
Definition allowed (c : call) (rb : object) : bool :=
  match c with
  | Write _ =>
      match full rb with
      | Returns f _ => negb f
      | _ => false
      end
  | Read =>
      match empty rb with
      | Returns e _ => negb e
      | _ => false
      end
  | _ => true
  end.

Fixpoint guarded (cs : list call) (rb : object) : bool :=
  match cs with
  | [] => true
  | c :: cs' =>
      allowed c rb &&
      match Cxx.state_after (exec c rb) with
      | Some rb' => guarded cs' rb'
      | None => true
      end
  end.

(** [buf_] has the [N] slots its type [std::array<T, N>] gives it. *)
Definition array_typed (rb : object) : Prop :=
  Z.of_nat (length (buf_ rb)) = N.

(** The bounds on the count and on the two indices. *)
Definition invariant (rb : object) : Prop :=
  0 <= size_ rb <= N /\ 0 <= head_ rb < N /\ 0 <= tail_ rb < N.

(** The write index is the read index advanced by the count. *)
Definition linked (rb : object) : Prop :=
  tail_ rb = (head_ rb + size_ rb) mod N.

(** The [k] slots met from index [i] on, stepping as [read] does. *)
Fixpoint walk (buf : list T) (i : Z) (k : nat) : list T :=
  match k with
  | O => []
  | S k' =>
      match buf !! Z.to_nat i with
      | Some x => x :: walk buf ((i + 1) mod N) k'
      | None => []
      end
  end.

(** The values held, the oldest first. *)
Definition contents (rb : object) : list T :=
  walk (buf_ rb) (head_ rb) (Z.to_nat (size_ rb)).
End RingBuffer.
Arguments buf_ {T} _.
Arguments head_ {T} _.
Arguments tail_ {T} _.
Arguments size_ {T} _.
Arguments init {T} N T_default.
Arguments empty {T} _.
Arguments full {T} N _.
Arguments size {T} _.
Arguments capacity {T} N _.
Arguments write {T} N value _.
Arguments read {T} N _.
Arguments Write {T} value.
Arguments Read {T}.
Arguments Empty {T}.
Arguments Full {T}.
Arguments Size {T}.
Arguments Capacity {T}.
Arguments Written {T}.
Arguments Got {T} value.
Arguments Flag {T} b.
Arguments Count {T} n.
Arguments exec {T} N c _.
Arguments run {T} N cs _.
Arguments written {T} cs.
Arguments got {T} rs.
Arguments reachable {T} N T_default _.
Arguments allowed {T} N c rb.
Arguments guarded {T} N cs rb.
Arguments array_typed {T} N rb.
Arguments invariant {T} N rb.
Arguments linked {T} N rb.
Arguments walk {T} N buf i k.
Arguments contents {T} N rb.
End RingBuffer.

(** ** [template <typename T, typename E> class Result] *)

Module Result.
Section Result.
Variables T E : Type.

Record object : Type := { data_ : Cxx.variant T E }.

(** [static Result ok(T value)] and [static Result err(E error)], the
    only ways to make a [Result]: both constructors are private. *)
Definition ok (value : T) : object := {| data_ := Cxx.holds_T value |}.
Definition err (error : E) : object := {| data_ := Cxx.holds_E error |}.

Definition is_ok : Cxx.M object bool :=
  gets (fun r => Cxx.holds_alternative_T (data_ r)).

Definition is_err : Cxx.M object bool :=
  do b <- is_ok; ret (negb b).

Definition value : Cxx.M object T :=
  do d <- gets data_; Cxx.get_T d.

Definition error : Cxx.M object E :=
  do d <- gets data_; Cxx.get_E d.
End Result.
Arguments data_ {T E} _.
Arguments ok {T E} value.
Arguments err {T E} error.
Arguments is_ok {T E} _.
Arguments is_err {T E} _.
Arguments value {T E} _.
Arguments error {T E} _.
End Result.

(** * yoda.hpp and algorithms.hpp *)

(** ** [yoda::map] and [yoda::find_if] *)

Module Yoda.

(** A [std::function] argument holds a callable or is empty; calling an
    empty one throws [std::bad_function_call].  The callables are taken
    to be pure. *)
Inductive outcome (A : Type) : Type :=
| Returned (a : A)
| Thrown_bad_function_call.
Arguments Returned {A} a.
Arguments Thrown_bad_function_call {A}.

Definition invoke {A B} (fn : option (A -> B)) (a : A) : outcome B :=
  match fn with
  | Some f => Returned (f a)
  | None => Thrown_bad_function_call
  end.

Section Yoda.
Variable T : Type.

(** [for (const auto& v : values) result.push_back(fn(v));] from the
    [result] built so far.  [result.reserve] changes no element and is
    left out. *)
Fixpoint map_loop (fn : option (T -> T)) (values result : list T)
    : outcome (list T) :=
  match values with
  | [] => Returned result
  | v :: values' =>
      match invoke fn v with
      | Returned y => map_loop fn values' (Cxx.vector_push_back result y)
      | Thrown_bad_function_call => Thrown_bad_function_call
      end
  end.

Definition map (values : list T) (fn : option (T -> T)) : outcome (list T) :=
  map_loop fn values [].

(** [for (const auto& v : values) if (pred(v)) return v;] and then
    [return std::nullopt]. *)
Fixpoint find_if (values : list T) (pred : option (T -> bool))
    : outcome (option T) :=
  match values with
  | [] => Returned None
  | v :: values' =>
      match invoke pred v with
      | Returned true => Returned (Some v)
      | Returned false => find_if values' pred
      | Thrown_bad_function_call => Thrown_bad_function_call
      end
  end.
End Yoda.
Arguments map_loop {T} fn values result.
Arguments map {T} values fn.
Arguments find_if {T} values pred.
End Yoda.

(** ** [namespace algorithms] *)

Module Algorithms.

(** [unsigned] is taken to have 32 bits; [std::uint64_t] has 64.  Both
    wrap. *)
Definition unsigned_modulus : Z := 2 ^ 32.
Definition uint64_modulus : Z := 2 ^ 64.
Definition wrap_unsigned (z : Z) : Z := z mod unsigned_modulus.
Definition wrap_uint64 (z : Z) : Z := z mod uint64_modulus.

(** How a function ends: with a value, in undefined behaviour, or not
    within the passes allowed to its loops. *)
Inductive result (A : Type) : Type :=
| Value (a : A)
| Undefined_behaviour
| Out_of_fuel.
Arguments Value {A} a.
Arguments Undefined_behaviour {A}.
Arguments Out_of_fuel {A}.

(** A loop over the variables [s].  [step] is the test followed by one
    pass of the body: it goes on with the new variables or leaves the
    loop.  Every pass, the last test included, takes one unit of
    [fuel]. *)
Fixpoint iterate {S R} (fuel : nat) (step : S -> S + result R) (s : S)
    : result R :=
  match fuel with
  | O => Out_of_fuel
  | Datatypes.S fuel' =>
      match step s with
      | inl s' => iterate fuel' step s'
      | inr r => r
      end
  end.

(** [gcd]: [while (b != 0) { t = b; b = a % b; a = t; } return a;] *)
Definition gcd_step (ab : Z * Z) : Z * Z + result Z :=
  let '(a, b) := ab in
  if negb (b =? 0) then
    let t := b in
    let b := a mod b in
    let a := t in
    inl (a, b)
  else inr (Value a).

Definition gcd (fuel : nat) (a b : Z) : result Z :=
  iterate fuel gcd_step (a, b).

(** [fibonacci]: the variables of the loop are [i], [a], [b]. *)
Definition fibonacci_step (n : Z) (iab : Z * Z * Z) : Z * Z * Z + result Z :=
  let '(i, a, b) := iab in
  if i <=? n then
    let c := wrap_uint64 (a + b) in
    let a := b in
    let b := c in
    inl (wrap_unsigned (i + 1), a, b)
  else inr (Value b).

Definition fibonacci (fuel : nat) (n : Z) : result Z :=
  if n <=? 1 then Value n
  else iterate fuel (fibonacci_step n) (2, 0, 1).

(** [is_prime]: the variable of the loop is [i]; [||] does not evaluate
    its right operand when the left one holds, and [%] by zero is
    undefined. *)
Definition is_prime_step (n i : Z) : Z + result bool :=
  if wrap_unsigned (i * i) <=? n then
    if i =? 0 then inr Undefined_behaviour
    else if n mod i =? 0 then inr (Value false)
    else if wrap_unsigned (i + 2) =? 0 then inr Undefined_behaviour
    else if n mod wrap_unsigned (i + 2) =? 0 then inr (Value false)
    else inl (wrap_unsigned (i + 6))
  else inr (Value true).

Definition is_prime (fuel : nat) (n : Z) : result bool :=
  if n <? 2 then Value false
  else if n <? 4 then Value true
  else if (n mod 2 =? 0) || (n mod 3 =? 0) then Value false
  else iterate fuel (is_prime_step n) 5.

(** The Fibonacci numbers of the documentation:
    [F(0) = 0], [F(1) = 1], [F(n) = F(n-1) + F(n-2)]. *)
Fixpoint fib (n : nat) : Z :=
  match n with
  | O => 0
  | Datatypes.S m =>
      match m with
      | O => 1
      | Datatypes.S k => fib m + fib k
      end
  end.

Section Sorting.
Variable T : Type.
(** [operator<] of [T]. *)
Variable ltb : T -> T -> bool.

(** [data[i]] as a value and as the target of an assignment; undefined
    outside the vector. *)
Definition vec_get (data : list T) (i : Z) : option T :=
  if Cxx.in_bounds data i then data !! Z.to_nat i else None.

Definition vec_set (data : list T) (i : Z) (x : T) : option (list T) :=
  if Cxx.in_bounds data i then Some (<[Z.to_nat i := x]> data) else None.

Definition vec_size (data : list T) : Z := Z.of_nat (length data).

(** [insertion_sort], inner loop:
    [while (j > 0 && key < data[j - 1]) { data[j] = data[j - 1]; --j; }] *)
Definition insertion_inner_step (key : T) (dj : list T * Z)
    : list T * Z + result (list T * Z) :=
  let '(data, j) := dj in
  if 0 <? j then
    match vec_get data (Cxx.wrap (j - 1)) with
    | None => inr Undefined_behaviour
    | Some x =>
        if ltb key x then
          match vec_set data j x with
          | None => inr Undefined_behaviour
          | Some data' => inl (data', Cxx.wrap (j - 1))
          end
        else inr (Value (data, j))
    end
  else inr (Value (data, j)).

(** [insertion_sort], outer loop:
    [for (i = 1; i < data.size(); ++i) { key = data[i]; j = i; ...;
    data[j] = key; }] *)
Definition insertion_outer_step (fuel : nat) (di : list T * Z)
    : list T * Z + result (list T) :=
  let '(data, i) := di in
  if i <? vec_size data then
    match vec_get data i with
    | None => inr Undefined_behaviour
    | Some key =>
        match iterate fuel (insertion_inner_step key) (data, i) with
        | Value (data', j) =>
            match vec_set data' j key with
            | None => inr Undefined_behaviour
            | Some data'' => inl (data'', Cxx.wrap (i + 1))
            end
        | Undefined_behaviour => inr Undefined_behaviour
        | Out_of_fuel => inr Out_of_fuel
        end
    end
  else inr (Value data).

Definition insertion_sort (fuel : nat) (data : list T) : result (list T) :=
  iterate fuel (insertion_outer_step fuel) (data, 1).

(** [std::swap(data[j], data[j + 1])]. *)
Definition vec_swap (data : list T) (j k : Z) : option (list T) :=
  match vec_get data j, vec_get data k with
  | Some a, Some b =>
      match vec_set data j b with
      | Some data' => vec_set data' k a
      | None => None
      end
  | _, _ => None
  end.

(** [bubble_sort], inner loop:
    [for (j = 0; j + 1 < data.size() - i; ++j)
       if (data[j + 1] < data[j]) { swap; swapped = true; }] *)
Definition bubble_inner_step (i : Z) (djs : list T * Z * bool)
    : list T * Z * bool + result (list T * bool) :=
  let '(data, j, swapped) := djs in
  if Cxx.wrap (j + 1) <? Cxx.wrap (vec_size data - i) then
    match vec_get data (Cxx.wrap (j + 1)), vec_get data j with
    | Some y, Some x =>
        if ltb y x then
          match vec_swap data j (Cxx.wrap (j + 1)) with
          | Some data' => inl (data', Cxx.wrap (j + 1), true)
          | None => inr Undefined_behaviour
          end
        else inl (data, Cxx.wrap (j + 1), swapped)
    | _, _ => inr Undefined_behaviour
    end
  else inr (Value (data, swapped)).

(** [bubble_sort], outer loop:
    [for (i = 0; i < data.size(); ++i) { swapped = false; ...;
    if (!swapped) break; }] *)
Definition bubble_outer_step (fuel : nat) (di : list T * Z)
    : list T * Z + result (list T) :=
  let '(data, i) := di in
  if i <? vec_size data then
    match iterate fuel (bubble_inner_step i) (data, 0, false) with
    | Value (data', swapped) =>
        if negb swapped then inr (Value data')
        else inl (data', Cxx.wrap (i + 1))
    | Undefined_behaviour => inr Undefined_behaviour
    | Out_of_fuel => inr Out_of_fuel
    end
  else inr (Value data).

Definition bubble_sort (fuel : nat) (data : list T) : result (list T) :=
  iterate fuel (bubble_outer_step fuel) (data, 0).

(** [a] is not after [b]: [b < a] does not hold. *)
Definition not_after (a b : T) : Prop := ltb b a = false.
End Sorting.
Arguments vec_get {T} data i.
Arguments vec_set {T} data i x.
Arguments vec_size {T} data.
Arguments vec_swap {T} data j k.
Arguments insertion_inner_step {T} ltb key dj.
Arguments insertion_outer_step {T} ltb fuel di.
Arguments insertion_sort {T} ltb fuel data.
Arguments bubble_inner_step {T} ltb i djs.
Arguments bubble_outer_step {T} ltb fuel di.
Arguments bubble_sort {T} ltb fuel data.
Arguments not_after {T} ltb a b.
End Algorithms.

(** * Laws *)

(** ** The two scenarios of the specification, run on the embedding *)

Example stack_scenario :
  Stack.run [Stack.Push 1; Stack.Push 2; Stack.Push 3;
             Stack.Pop; Stack.Pop; Stack.Pop] Stack.init
  = Returns [Stack.Pushed; Stack.Pushed; Stack.Pushed;
             Stack.Popped 3; Stack.Popped 2; Stack.Popped 1] Stack.init
  /\ Stack.pop (T:=Z) Stack.init
     = Throws Cxx.throw_BufferUnderflow Stack.init.
Proof. split; reflexivity. Qed.

Example ring_scenario :
  let rb1 := {| RingBuffer.buf_ := [1; 2; 3]; RingBuffer.head_ := 0;
                RingBuffer.tail_ := 0; RingBuffer.size_ := 3 |} in
  let rb2 := {| RingBuffer.buf_ := [4; 2; 3]; RingBuffer.head_ := 1;
                RingBuffer.tail_ := 1; RingBuffer.size_ := 0 |} in
  RingBuffer.run 3
    [RingBuffer.Write 1; RingBuffer.Write 2; RingBuffer.Write 3;
     RingBuffer.Full] (RingBuffer.init 3 0)
  = Returns [RingBuffer.Written; RingBuffer.Written; RingBuffer.Written;
             RingBuffer.Flag true] rb1 /\
  RingBuffer.write 3 4 rb1 = Throws Cxx.throw_BufferOverflow rb1 /\
  RingBuffer.run 3
    [RingBuffer.Read; RingBuffer.Write 4;
     RingBuffer.Read; RingBuffer.Read; RingBuffer.Read] rb1
  = Returns [RingBuffer.Got 1; RingBuffer.Written;
             RingBuffer.Got 2; RingBuffer.Got 3; RingBuffer.Got 4] rb2 /\
  RingBuffer.empty rb2 = Returns true rb2.
Proof. vm_compute. repeat split. Qed.

(** ** Result *)

Section ResultLaws.
Context {T E : Type}.

Lemma result_cases (r : Result.object T E) :
  (exists v, r = Result.ok v) \/ (exists e, r = Result.err e).
Proof.
  destruct r as [[v | e]]; [left | right]; eexists; reflexivity.
Qed.

(** C1.  [value()] of an error-variant [Result] and [error()] of a
    success-variant one end in an exception, [std::bad_variant_access],
    with the object as it was.  A handler for that class takes it and
    takes neither [BufferOverflow] nor [BufferUnderflow]; the handlers
    for these two and for their base [ContainerError] do not take it;
    and its message, like theirs, is one fixed text for the kind, with
    nothing of the call in it. *)
Theorem result_wrong_variant_access (r : Result.object T E) :
  (Result.is_err r = Returns true r ->
     Result.value r = Throws Cxx.throw_bad_variant_access r) /\
  (Result.is_ok r = Returns true r ->
     Result.error r = Throws Cxx.throw_bad_variant_access r) /\
  Cxx.catches Cxx.std_bad_variant_access Cxx.throw_bad_variant_access = true /\
  Cxx.catches Cxx.std_bad_variant_access Cxx.throw_BufferOverflow = false /\
  Cxx.catches Cxx.std_bad_variant_access Cxx.throw_BufferUnderflow = false /\
  Cxx.catches Cxx.ContainerError Cxx.throw_bad_variant_access = false /\
  Cxx.catches Cxx.BufferOverflow Cxx.throw_bad_variant_access = false /\
  Cxx.catches Cxx.BufferUnderflow Cxx.throw_bad_variant_access = false /\
  (forall msg,
     Cxx.what msg Cxx.throw_bad_variant_access = msg /\
     Cxx.what msg Cxx.throw_BufferOverflow
       = "buffer overflow: container is full"%string /\
     Cxx.what msg Cxx.throw_BufferUnderflow
       = "buffer underflow: container is empty"%string).
Proof.
  split; [| split; [| repeat split]].
  - destruct r as [[v | e]]; [discriminate | reflexivity].
  - destruct r as [[v | e]]; [reflexivity | discriminate].
Qed.

(** C6.  [ok(v)] is a success holding exactly [v], [err(e)] an error
    holding exactly [e], and of [is_ok()] and [is_err()] exactly one
    answers true on any [Result]. *)
Theorem result_exclusivity :
  (forall v : T,
     Result.is_ok (Result.ok (E:=E) v) = Returns true (Result.ok v) /\
     Result.is_err (Result.ok (E:=E) v) = Returns false (Result.ok v) /\
     Result.value (Result.ok (E:=E) v) = Returns v (Result.ok v)) /\
  (forall e : E,
     Result.is_err (Result.err (T:=T) e) = Returns true (Result.err e) /\
     Result.is_ok (Result.err (T:=T) e) = Returns false (Result.err e) /\
     Result.error (Result.err (T:=T) e) = Returns e (Result.err e)) /\
  (forall r : Result.object T E,
     exists b,
       Result.is_ok r = Returns b r /\ Result.is_err r = Returns (negb b) r).
Proof.
  split; [| split].
  - intros v. repeat split.
  - intros e. repeat split.
  - intros r. exists (Cxx.holds_alternative_T (Result.data_ r)).
    split; reflexivity.
Qed.
End ResultLaws.

(** The statement of C1 at an error holding a string and at a success
    holding a number. *)
Lemma result_wrong_variant_access_witness :
  Result.is_err (Result.err (T:=Z) "division by zero"%string)
    = Returns true (Result.err "division by zero"%string) /\
  Result.value (Result.err (T:=Z) "division by zero"%string)
    = Throws Cxx.throw_bad_variant_access (Result.err "division by zero"%string) /\
  Result.error (Result.ok (E:=string) 7)
    = Throws Cxx.throw_bad_variant_access (Result.ok 7).
Proof.
  split; [reflexivity |]. split.
  - apply (result_wrong_variant_access (Result.err "division by zero"%string)).
    reflexivity.
  - apply (result_wrong_variant_access (Result.ok 7)). reflexivity.
Defined.

(** ** Stack *)

Section StackLaws.
Context {T : Type}.
Implicit Types (s : Stack.object T) (cs : list (Stack.call T)).
Implicit Types (d : list T) (v : T).

Lemma stack_empty_spec s :
  Stack.empty s = Returns (Cxx.vector_empty (Stack.data_ s)) s.
Proof. reflexivity. Qed.

Lemma stack_empty_true s :
  Stack.empty s = Returns true s <-> Stack.data_ s = [].
Proof.
  rewrite stack_empty_spec. destruct s as [[| x d]]; simpl; split;
    intros H; first [reflexivity | discriminate H].
Qed.

Lemma stack_push_spec v s :
  Stack.push v s = Returns tt {| Stack.data_ := Stack.data_ s ++ [v] |}.
Proof. reflexivity. Qed.

Lemma stack_pop_empty s :
  Stack.data_ s = [] -> Stack.pop s = Throws Cxx.throw_BufferUnderflow s.
Proof. destruct s as [d]; simpl; intros ->; reflexivity. Qed.

Lemma stack_top_empty s :
  Stack.data_ s = [] -> Stack.top s = Throws Cxx.throw_BufferUnderflow s.
Proof. destruct s as [d]; simpl; intros ->; reflexivity. Qed.

Lemma vector_snoc_not_empty d v :
  Cxx.vector_empty (d ++ [v]) = false.
Proof. destruct d; reflexivity. Qed.

Lemma stack_pop_snoc d v :
  Stack.pop {| Stack.data_ := d ++ [v] |}
  = Returns v {| Stack.data_ := d |}.
Proof.
  unfold Stack.pop, Cxx.bind, gets, modify, ret; simpl.
  rewrite vector_snoc_not_empty.
  unfold Cxx.vector_back; simpl. rewrite last_snoc. unfold ret.
  unfold Cxx.vector_pop_back; simpl.
  destruct (d ++ [v]) as [| y l] eqn:Hd.
  - destruct d; discriminate Hd.
  - unfold ret. rewrite <- Hd, removelast_last. reflexivity.
Qed.


Lemma vector_not_empty_snoc d :
  Cxx.vector_empty d = false -> exists d' v, d = d' ++ [v].
Proof.
  intros H. destruct d as [| x d] using rev_ind.
  - discriminate H.
  - eauto.
Qed.

(** One guarded run, from any state: it returns, the pops are those of
    the LIFO discipline started with the values held, and the count
    moves by the pushes less the pops. *)
Lemma stack_run_guarded cs : forall s,
  Stack.guarded cs s = true ->
  exists rs s',
    Stack.run cs s = Returns rs s' /\
    Stack.popped rs = Stack.lifo_pops cs (rev (Stack.data_ s)) /\
    (length (Stack.data_ s') + Stack.pops cs
     = length (Stack.data_ s) + Stack.pushes cs)%nat.
Proof.
  induction cs as [| c cs IH]; intros s Hg.
  - exists [], s. repeat split.
  - simpl in Hg. apply andb_true_iff in Hg as [Hc Hg].
    destruct c as [v |].
    + simpl in Hg. destruct (IH _ Hg) as (rs & s' & Hrun & Hpop & Hlen).
      exists (Stack.Pushed :: rs), s'. simpl in *.
      unfold Cxx.bind at 1. simpl. unfold Cxx.bind at 1.
      rewrite Hrun. split; [reflexivity |]. split.
      * unfold Cxx.vector_push_back in Hpop.
        rewrite Hpop, rev_app_distr. reflexivity.
      * unfold Cxx.vector_push_back in Hlen.
        rewrite length_app in Hlen. simpl in Hlen.
        unfold Stack.pushes, Stack.pops in *. simpl. lia.
    + simpl in Hc. apply negb_true_iff in Hc.
      destruct (vector_not_empty_snoc _ Hc) as (d & v & Hd).
      destruct s as [d0]. simpl in Hd. subst d0.
      unfold Stack.exec in Hg. unfold Cxx.bind in Hg.
      rewrite stack_pop_snoc in Hg. simpl in Hg.
      destruct (IH _ Hg) as (rs & s' & Hrun & Hpop & Hlen).
      exists (Stack.Popped v :: rs), s'.
      cbn [Stack.run Stack.exec]. unfold Cxx.bind at 1. unfold Cxx.bind at 1.
      rewrite stack_pop_snoc. unfold ret at 1. unfold Cxx.bind at 1.
      rewrite Hrun. split; [reflexivity |]. split.
      * cbn [Stack.data_]. rewrite rev_app_distr. simpl.
        simpl in Hpop. rewrite <- Hpop. reflexivity.
      * cbn [Stack.data_] in *. rewrite length_app. simpl.
        unfold Stack.pushes, Stack.pops in *. simpl. lia.
Qed.

Lemma stack_guarded_take cs : forall s k,
  Stack.guarded cs s = true -> Stack.guarded (take k cs) s = true.
Proof.
  induction cs as [| c cs IH]; intros s k Hg.
  - destruct k; reflexivity.
  - destruct k as [| k]; [reflexivity |].
    simpl in *. apply andb_true_iff in Hg as [Hc Hg].
    rewrite Hc. simpl.
    destruct (Cxx.state_after (Stack.exec c s)); [apply IH; exact Hg | reflexivity].
Qed.

(** C3.  In a run of pushes and pops from the empty stack in which
    every pop is made on a non-empty stack, every call returns, the
    popped values are those of the LIFO discipline (each pop hands back
    the most recent push not yet popped), and after every prefix
    [size()] is the number of pushes less the number of pops, the pops
    never outnumbering the pushes. *)
Theorem stack_lifo_law cs :
  Stack.guarded cs Stack.init = true ->
  (exists rs s,
     Stack.run cs Stack.init = Returns rs s /\
     Stack.popped rs = Stack.lifo_pops cs []) /\
  (forall k, exists rs s,
     Stack.run (take k cs) Stack.init = Returns rs s /\
     Stack.size s
     = Returns (Z.of_nat (Stack.pushes (take k cs))
                - Z.of_nat (Stack.pops (take k cs))) s /\
     (Stack.pops (take k cs) <= Stack.pushes (take k cs))%nat).
Proof.
  intros Hg. split.
  - destruct (stack_run_guarded cs _ Hg) as (rs & s & Hrun & Hpop & _).
    exists rs, s. split; assumption.
  - intros k.
    destruct (stack_run_guarded _ _ (stack_guarded_take cs _ k Hg))
      as (rs & s & Hrun & _ & Hlen).
    exists rs, s. simpl in Hlen. split; [exact Hrun |]. split.
    + unfold Stack.size, gets. f_equal. lia.
    + lia.
Qed.

(** The pushes of [vs] followed by as many pops hand [vs] back in
    reverse. *)
Lemma stack_pops_reverse (vs : list T) :
  exists rs,
    Stack.run (map Stack.Push vs ++ replicate (length vs) Stack.Pop)
      Stack.init = Returns rs Stack.init /\
    Stack.popped rs = rev vs.
Proof.
  assert (Hpush : forall vs d (k : list (Stack.call T)),
    Stack.run (map Stack.Push vs ++ k) {| Stack.data_ := d |}
    = match Stack.run k {| Stack.data_ := d ++ vs |} with
      | Returns rs' s' => Returns (map (fun _ => Stack.Pushed) vs ++ rs') s'
      | Throws e s' => Throws e s'
      | Undefined => Undefined
      end).
  { clear. induction vs as [| v vs IH]; intros d k.
    - simpl. rewrite app_nil_r.
      destruct (Stack.run k _); reflexivity.
    - simpl. unfold Cxx.bind at 1 2. simpl. unfold Cxx.bind at 1.
      unfold Cxx.vector_push_back.
      rewrite IH. rewrite <- app_assoc. simpl.
      destruct (Stack.run k _); reflexivity. }
  assert (Hpop : forall vs d,
    Stack.run (replicate (length vs) Stack.Pop) {| Stack.data_ := d ++ vs |}
    = Returns (map Stack.Popped (rev vs)) {| Stack.data_ := d |}).
  { clear. induction vs as [| v vs IH] using rev_ind; intros d.
    - rewrite app_nil_r. reflexivity.
    - rewrite length_app, Nat.add_comm. simpl.
      unfold Cxx.bind at 1 2. rewrite app_assoc, stack_pop_snoc.
      unfold ret at 1. unfold Cxx.bind at 1. rewrite IH.
      rewrite rev_app_distr. reflexivity. }
  unfold Stack.init. rewrite Hpush.
  rewrite (Hpop vs []). eexists. split; [reflexivity |].
  assert (Hnone : forall l : list T,
    Stack.popped (T:=T) (map (fun _ => Stack.Pushed) l) = []).
  { clear. induction l as [| x l IH]; [reflexivity | exact IH]. }
  assert (Hall : forall l : list T, Stack.popped (map Stack.Popped l) = l).
  { clear. induction l as [| x l IH]; [reflexivity |].
    simpl. f_equal. exact IH. }
  unfold Stack.popped in *. rewrite omap_app, Hnone, Hall. reflexivity.
Qed.
End StackLaws.

(** The statement of C3 at push 1, push 2, pop, push 3, pop, pop. *)
Lemma stack_lifo_law_witness :
  exists rs s,
    Stack.run [Stack.Push 1; Stack.Push 2; Stack.Pop;
               Stack.Push 3; Stack.Pop; Stack.Pop] Stack.init
    = Returns rs s /\
    Stack.popped rs
    = Stack.lifo_pops [Stack.Push 1; Stack.Push 2; Stack.Pop;
                       Stack.Push 3; Stack.Pop; Stack.Pop] [].
Proof.
  apply (stack_lifo_law [Stack.Push 1; Stack.Push 2; Stack.Pop;
                         Stack.Push 3; Stack.Pop; Stack.Pop]).
  reflexivity.
Defined.

(** ** RingBuffer *)

Lemma wrap_small z : 0 <= z < Cxx.size_t_modulus -> Cxx.wrap z = z.
Proof. intros H. unfold Cxx.wrap. apply Z.mod_small. exact H. Qed.

Section RingBufferLaws.
Context {T : Type}.
Variable N : Z.
Implicit Types (rb : RingBuffer.object T) (v : T).
Implicit Types (cs : list (RingBuffer.call T)).

(** *** What the guards decide, for any [N] *)

Lemma ring_write_full v rb :
  RingBuffer.size_ rb = N ->
  RingBuffer.write N v rb = Throws Cxx.throw_BufferOverflow rb.
Proof.
  intros H. unfold RingBuffer.write, RingBuffer.full, Cxx.bind, gets.
  rewrite (proj2 (Z.eqb_eq _ _) H). reflexivity.
Qed.

Lemma ring_read_empty rb :
  RingBuffer.size_ rb = 0 ->
  RingBuffer.read N rb = Throws Cxx.throw_BufferUnderflow rb.
Proof.
  intros H. unfold RingBuffer.read, RingBuffer.empty, Cxx.bind, gets.
  rewrite (proj2 (Z.eqb_eq _ _) H). reflexivity.
Qed.

Lemma ring_empty_true rb :
  RingBuffer.empty rb = Returns true rb <-> RingBuffer.size_ rb = 0.
Proof.
  unfold RingBuffer.empty, gets. split.
  - intros H. apply Z.eqb_eq. congruence.
  - intros H. rewrite (proj2 (Z.eqb_eq _ _) H). reflexivity.
Qed.

Lemma ring_full_true rb :
  RingBuffer.full N rb = Returns true rb <-> RingBuffer.size_ rb = N.
Proof.
  unfold RingBuffer.full, gets. split.
  - intros H. apply Z.eqb_eq. congruence.
  - intros H. rewrite (proj2 (Z.eqb_eq _ _) H). reflexivity.
Qed.

(** *** The successful paths, for a capacity of at least one *)

Hypothesis N_pos : 1 <= N.
Hypothesis N_size_t : N < Cxx.size_t_modulus.

Lemma ring_write_spec v rb :
  RingBuffer.array_typed N rb ->
  RingBuffer.invariant N rb ->
  RingBuffer.size_ rb <> N ->
  RingBuffer.write N v rb
  = Returns tt
      {| RingBuffer.buf_ :=
           <[Z.to_nat (RingBuffer.tail_ rb) := v]> (RingBuffer.buf_ rb);
         RingBuffer.head_ := RingBuffer.head_ rb;
         RingBuffer.tail_ := (RingBuffer.tail_ rb + 1) mod N;
         RingBuffer.size_ := RingBuffer.size_ rb + 1 |}.
Proof.
  intros Hty (Hs & Hh & Ht) Hne. destruct rb as [b h t n].
  unfold RingBuffer.array_typed in Hty. simpl in *.
  unfold RingBuffer.write, RingBuffer.full, Cxx.bind, gets, modify; simpl.
  rewrite (proj2 (Z.eqb_neq _ _) Hne).
  unfold Cxx.array_set, Cxx.in_bounds; simpl.
  rewrite (proj2 (Z.leb_le _ _)), (proj2 (Z.ltb_lt _ _)) by lia. simpl.
  rewrite wrap_small by lia. unfold Cxx.umod.
  rewrite (proj2 (Z.eqb_neq N 0)) by lia. simpl.
  rewrite wrap_small by lia. reflexivity.
Qed.

Lemma ring_read_spec rb :
  RingBuffer.array_typed N rb ->
  RingBuffer.invariant N rb ->
  RingBuffer.size_ rb <> 0 ->
  exists x,
    RingBuffer.buf_ rb !! Z.to_nat (RingBuffer.head_ rb) = Some x /\
    RingBuffer.read N rb
    = Returns x
        {| RingBuffer.buf_ := RingBuffer.buf_ rb;
           RingBuffer.head_ := (RingBuffer.head_ rb + 1) mod N;
           RingBuffer.tail_ := RingBuffer.tail_ rb;
           RingBuffer.size_ := RingBuffer.size_ rb - 1 |}.
Proof.
  intros Hty (Hs & Hh & Ht) Hne. destruct rb as [b h t n].
  unfold RingBuffer.array_typed in Hty. simpl in *.
  destruct (lookup_lt_is_Some_2 b (Z.to_nat h)) as [x Hx]; [lia |].
  exists x. split; [exact Hx |].
  unfold RingBuffer.read, RingBuffer.empty, Cxx.bind, gets, modify; simpl.
  rewrite (proj2 (Z.eqb_neq _ _) Hne).
  unfold Cxx.array_get, Cxx.in_bounds; simpl. rewrite Hx.
  rewrite (proj2 (Z.leb_le _ _)), (proj2 (Z.ltb_lt _ _)) by lia. simpl.
  rewrite wrap_small by lia. unfold Cxx.umod.
  rewrite (proj2 (Z.eqb_neq N 0)) by lia. simpl.
  rewrite wrap_small by lia. reflexivity.
Qed.
(** *** Index arithmetic *)

Lemma ring_next_bound i : 0 <= (i + 1) mod N < N.
Proof. apply Z.mod_pos_bound. lia. Qed.

Lemma ring_next_shift i k : ((i + 1) mod N + k) mod N = (i + (k + 1)) mod N.
Proof. rewrite Zplus_mod_idemp_l. f_equal. lia. Qed.

Lemma ring_shift_ne i k : 0 <= i < N -> 0 < k < N -> (i + k) mod N <> i.
Proof.
  intros Hi Hk. destruct (Z_lt_le_dec (i + k) N) as [Hlt | Hge].
  - rewrite Z.mod_small by lia. lia.
  - replace (i + k) with ((i + k - N) + 1 * N) by lia.
    rewrite Z_mod_plus_full, Z.mod_small by lia. lia.
Qed.

(** *** One call keeps the bounds and the link between the indices *)

Lemma ring_write_step v rb :
  RingBuffer.array_typed N rb ->
  RingBuffer.invariant N rb ->
  exists rb',
    Cxx.state_after (RingBuffer.write N v rb) = Some rb' /\
    RingBuffer.array_typed N rb' /\
    RingBuffer.invariant N rb' /\
    (RingBuffer.linked N rb -> RingBuffer.linked N rb').
Proof.
  intros Hty Hinv. destruct (Z.eq_dec (RingBuffer.size_ rb) N) as [Hf | Hf].
  - rewrite ring_write_full by exact Hf. exists rb. auto.
  - rewrite ring_write_spec by assumption. eexists. split; [reflexivity |].
    destruct Hinv as (Hs & Hh & Ht).
    unfold RingBuffer.array_typed, RingBuffer.invariant, RingBuffer.linked
      in *. simpl. rewrite length_insert.
    pose proof (ring_next_bound (RingBuffer.tail_ rb)).
    repeat split; try lia.
    intros ->. rewrite Zplus_mod_idemp_l. f_equal. lia.
Qed.

Lemma ring_read_step rb :
  RingBuffer.array_typed N rb ->
  RingBuffer.invariant N rb ->
  exists rb',
    Cxx.state_after (RingBuffer.read N rb) = Some rb' /\
    RingBuffer.array_typed N rb' /\
    RingBuffer.invariant N rb' /\
    (RingBuffer.linked N rb -> RingBuffer.linked N rb').
Proof.
  intros Hty Hinv. destruct (Z.eq_dec (RingBuffer.size_ rb) 0) as [He | He].
  - rewrite ring_read_empty by exact He. exists rb. auto.
  - destruct (ring_read_spec rb Hty Hinv He) as (x & _ & ->).
    eexists. split; [reflexivity |].
    destruct Hinv as (Hs & Hh & Ht).
    unfold RingBuffer.array_typed, RingBuffer.invariant, RingBuffer.linked
      in *. simpl.
    pose proof (ring_next_bound (RingBuffer.head_ rb)).
    repeat split; try lia.
    intros ->. rewrite ring_next_shift. f_equal. lia.
Qed.

Lemma ring_exec_step c rb :
  RingBuffer.array_typed N rb ->
  RingBuffer.invariant N rb ->
  exists rb',
    Cxx.state_after (RingBuffer.exec N c rb) = Some rb' /\
    RingBuffer.array_typed N rb' /\
    RingBuffer.invariant N rb' /\
    (RingBuffer.linked N rb -> RingBuffer.linked N rb').
Proof.
  intros Hty Hinv. destruct c as [v | | | | |].
  - destruct (ring_write_step v rb Hty Hinv) as (rb' & Hst & H).
    exists rb'. split; [| exact H].
    unfold RingBuffer.exec, Cxx.bind.
    destruct (RingBuffer.write N v rb); exact Hst.
  - destruct (ring_read_step rb Hty Hinv) as (rb' & Hst & H).
    exists rb'. split; [| exact H].
    unfold RingBuffer.exec, Cxx.bind.
    destruct (RingBuffer.read N rb); exact Hst.
  - exists rb. auto.
  - exists rb. auto.
  - exists rb. auto.
  - exists rb. auto.
Qed.

Variable T_default : T.

Lemma ring_init_wf :
  RingBuffer.array_typed N (RingBuffer.init N T_default) /\
  RingBuffer.invariant N (RingBuffer.init N T_default) /\
  RingBuffer.linked N (RingBuffer.init N T_default).
Proof.
  unfold RingBuffer.array_typed, RingBuffer.invariant, RingBuffer.linked.
  simpl. rewrite length_replicate, Z.mod_0_l by lia. lia.
Qed.

Lemma ring_reachable_wf rb :
  RingBuffer.reachable N T_default rb ->
  RingBuffer.array_typed N rb /\
  RingBuffer.invariant N rb /\
  RingBuffer.linked N rb.
Proof.
  induction 1 as [| rb c rb' _ (Hty & Hinv & Hl) Hst].
  - exact ring_init_wf.
  - destruct (ring_exec_step c rb Hty Hinv) as (rb2 & Hst2 & ? & ? & ?).
    rewrite Hst in Hst2. injection Hst2 as <-. auto.
Qed.
(** *** The values held, across a write and a read *)

Lemma ring_walk_insert_snoc v k : forall i (buf : list T),
  Z.of_nat (length buf) = N ->
  0 <= i < N ->
  Z.of_nat k < N ->
  RingBuffer.walk N (<[Z.to_nat ((i + Z.of_nat k) mod N) := v]> buf) i (S k)
  = RingBuffer.walk N buf i k ++ [v].
Proof.
  induction k as [| k IH]; intros i buf Hlen Hi Hk.
  - simpl. rewrite Z.add_0_r, Z.mod_small by lia.
    rewrite list_lookup_insert_eq by lia. reflexivity.
  - destruct (lookup_lt_is_Some_2 buf (Z.to_nat i)) as [x Hx]; [lia |].
    pose proof (ring_shift_ne i (Z.of_nat (S k)) Hi ltac:(lia)) as Hne.
    pose proof (Z.mod_pos_bound (i + Z.of_nat (S k)) N ltac:(lia)) as Hb.
    cbn [RingBuffer.walk].
    rewrite list_lookup_insert_ne by lia. rewrite Hx.
    replace ((i + Z.of_nat (S k)) mod N)
      with (((i + 1) mod N + Z.of_nat k) mod N)
      by (rewrite ring_next_shift; f_equal; lia).
    specialize (IH ((i + 1) mod N) buf Hlen (ring_next_bound i) ltac:(lia)).
    cbn [RingBuffer.walk] in IH. rewrite IH. reflexivity.
Qed.

Lemma ring_contents_write v rb :
  RingBuffer.array_typed N rb ->
  RingBuffer.invariant N rb ->
  RingBuffer.linked N rb ->
  RingBuffer.size_ rb <> N ->
  exists rb',
    RingBuffer.write N v rb = Returns tt rb' /\
    RingBuffer.contents N rb' = RingBuffer.contents N rb ++ [v].
Proof.
  intros Hty Hinv Hl Hf. rewrite ring_write_spec by assumption.
  eexists. split; [reflexivity |].
  destruct Hinv as (Hs & Hh & Ht).
  unfold RingBuffer.contents, RingBuffer.array_typed, RingBuffer.linked in *.
  simpl. rewrite Hl.
  replace (Z.to_nat (RingBuffer.size_ rb + 1))
    with (S (Z.to_nat (RingBuffer.size_ rb))) by lia.
  rewrite <- (Z2Nat.id (RingBuffer.size_ rb)) at 1 by lia.
  apply ring_walk_insert_snoc; [exact Hty | exact Hh | lia].
Qed.

Lemma ring_contents_read rb :
  RingBuffer.array_typed N rb ->
  RingBuffer.invariant N rb ->
  RingBuffer.size_ rb <> 0 ->
  exists x rb',
    RingBuffer.read N rb = Returns x rb' /\
    RingBuffer.contents N rb = x :: RingBuffer.contents N rb'.
Proof.
  intros Hty Hinv He.
  destruct (ring_read_spec rb Hty Hinv He) as (x & Hx & ->).
  eexists _, _. split; [reflexivity |].
  destruct Hinv as (Hs & Hh & Ht).
  unfold RingBuffer.contents. simpl.
  replace (Z.to_nat (RingBuffer.size_ rb))
    with (S (Z.to_nat (RingBuffer.size_ rb - 1))) by lia.
  cbn [RingBuffer.walk]. rewrite Hx. reflexivity.
Qed.

Lemma ring_contents_empty rb :
  RingBuffer.size_ rb = 0 -> RingBuffer.contents N rb = [].
Proof. intros H. unfold RingBuffer.contents. rewrite H. reflexivity. Qed.

(** One guarded run, from any state within the bounds: it returns, and
    the values held before followed by those written are the values
    read followed by those held after. *)
Lemma ring_run_guarded cs : forall rb,
  RingBuffer.array_typed N rb ->
  RingBuffer.invariant N rb ->
  RingBuffer.linked N rb ->
  RingBuffer.guarded N cs rb = true ->
  exists rs rb',
    RingBuffer.run N cs rb = Returns rs rb' /\
    RingBuffer.array_typed N rb' /\
    RingBuffer.invariant N rb' /\
    RingBuffer.linked N rb' /\
    RingBuffer.contents N rb ++ RingBuffer.written cs
    = RingBuffer.got rs ++ RingBuffer.contents N rb'.
Proof.
  induction cs as [| c cs IH]; intros rb Hty Hinv Hl Hg.
  - exists [], rb. simpl. rewrite app_nil_r. auto.
  - simpl in Hg. apply andb_true_iff in Hg as [Hc Hg].
    destruct (ring_exec_step c rb Hty Hinv) as (rb1 & Hst & Hty1 & Hinv1 & Hl1).
    specialize (Hl1 Hl). rewrite Hst in Hg.
    destruct (IH rb1 Hty1 Hinv1 Hl1 Hg) as (rs & rb' & Hrun & Hty' & Hinv' & Hl' & Hq).
    destruct c as [v | | | | |].
    + simpl in Hc. apply negb_true_iff, Z.eqb_neq in Hc.
      destruct (ring_contents_write v rb Hty Hinv Hl Hc) as (rb2 & Hw & Hcw).
      unfold RingBuffer.exec, Cxx.bind in Hst. rewrite Hw in Hst.
      simpl in Hst. injection Hst as ->.
      exists (RingBuffer.Written :: rs), rb'.
      cbn [RingBuffer.run RingBuffer.exec]. unfold Cxx.bind at 1 2.
      rewrite Hw. unfold ret at 1. unfold Cxx.bind at 1. rewrite Hrun.
      repeat (split; [first [reflexivity | assumption] |]).
      rewrite Hcw in Hq. rewrite <- app_assoc in Hq. exact Hq.
    + simpl in Hc. apply negb_true_iff, Z.eqb_neq in Hc.
      destruct (ring_contents_read rb Hty Hinv Hc) as (x & rb2 & Hr & Hcr).
      unfold RingBuffer.exec, Cxx.bind in Hst. rewrite Hr in Hst.
      simpl in Hst. injection Hst as ->.
      exists (RingBuffer.Got x :: rs), rb'.
      cbn [RingBuffer.run RingBuffer.exec]. unfold Cxx.bind at 1 2.
      rewrite Hr. unfold ret at 1. unfold Cxx.bind at 1. rewrite Hrun.
      repeat (split; [first [reflexivity | assumption] |]).
      rewrite Hcr. simpl. f_equal. exact Hq.
    + simpl in Hst. injection Hst as ->.
      eexists (_ :: rs), rb'.
      cbn [RingBuffer.run RingBuffer.exec]. unfold Cxx.bind at 1 2.
      unfold RingBuffer.empty, gets, ret at 1. unfold Cxx.bind at 1.
      rewrite Hrun. auto.
    + simpl in Hst. injection Hst as ->.
      eexists (_ :: rs), rb'.
      cbn [RingBuffer.run RingBuffer.exec]. unfold Cxx.bind at 1 2.
      unfold RingBuffer.full, gets, ret at 1. unfold Cxx.bind at 1.
      rewrite Hrun. auto.
    + simpl in Hst. injection Hst as ->.
      eexists (_ :: rs), rb'.
      cbn [RingBuffer.run RingBuffer.exec]. unfold Cxx.bind at 1 2.
      unfold RingBuffer.size, gets, ret at 1. unfold Cxx.bind at 1.
      rewrite Hrun. auto.
    + simpl in Hst. injection Hst as ->.
      eexists (_ :: rs), rb'.
      cbn [RingBuffer.run RingBuffer.exec]. unfold Cxx.bind at 1 2.
      unfold RingBuffer.capacity, ret at 1 2. unfold Cxx.bind at 1.
      rewrite Hrun. auto.
Qed.

Lemma ring_guarded_take cs : forall rb k,
  RingBuffer.guarded N cs rb = true ->
  RingBuffer.guarded N (take k cs) rb = true.
Proof.
  induction cs as [| c cs IH]; intros rb k Hg.
  - destruct k; reflexivity.
  - destruct k as [| k]; [reflexivity |].
    simpl in *. apply andb_true_iff in Hg as [Hc Hg].
    rewrite Hc. simpl.
    destruct (Cxx.state_after (RingBuffer.exec N c rb));
      [apply IH; exact Hg | reflexivity].
Qed.
(** Writes into free slots all return, and the count grows by their
    number. *)
Lemma ring_run_writes (vs : list T) : forall rb,
  RingBuffer.array_typed N rb ->
  RingBuffer.invariant N rb ->
  RingBuffer.size_ rb + Z.of_nat (length vs) <= N ->
  exists rb',
    RingBuffer.run N (map RingBuffer.Write vs) rb
    = Returns (map (fun _ => RingBuffer.Written) vs) rb' /\
    RingBuffer.array_typed N rb' /\
    RingBuffer.invariant N rb' /\
    RingBuffer.size_ rb' = RingBuffer.size_ rb + Z.of_nat (length vs).
Proof.
  induction vs as [| v vs IH]; intros rb Hty Hinv Hroom.
  - exists rb. simpl. repeat split; first [assumption | apply Hinv | lia].
  - simpl in Hroom.
    assert (Hf : RingBuffer.size_ rb <> N) by lia.
    destruct (ring_write_step v rb Hty Hinv) as (rb1 & Hst & Hty1 & Hinv1 & _).
    rewrite ring_write_spec in Hst by assumption. simpl in Hst.
    injection Hst as <-.
    destruct (IH _ Hty1 Hinv1) as (rb' & Hrun & Hty' & Hinv' & Hsz).
    { simpl. lia. }
    exists rb'. cbn [map RingBuffer.run RingBuffer.exec].
    unfold Cxx.bind at 1 2. rewrite ring_write_spec by assumption.
    unfold ret at 1. unfold Cxx.bind at 1. rewrite Hrun.
    repeat (split; [first [reflexivity | assumption] |]).
    rewrite Hsz. simpl. lia.
Qed.

(** C2, as amended.  In a run from the constructed buffer in which every
    write is made when the buffer is not full and every read when it is
    not empty, every call returns; the values read are, in order, the
    first of the values written: the i-th value read is the i-th value
    written, and the two sequences are equal whenever the run leaves
    the buffer empty; and after every prefix of the run [size()] lies
    in [0, N]. *)
Theorem ring_fifo_law cs :
  RingBuffer.guarded N cs (RingBuffer.init N T_default) = true ->
  (exists rs rb,
     RingBuffer.run N cs (RingBuffer.init N T_default) = Returns rs rb /\
     (forall i v,
        RingBuffer.got rs !! i = Some v ->
        RingBuffer.written cs !! i = Some v) /\
     (RingBuffer.empty rb = Returns true rb ->
      RingBuffer.got rs = RingBuffer.written cs)) /\
  (forall k, exists rs rb n,
     RingBuffer.run N (take k cs) (RingBuffer.init N T_default)
     = Returns rs rb /\
     RingBuffer.size rb = Returns n rb /\
     0 <= n <= N).
Proof.
  intros Hg. destruct ring_init_wf as (Hty & Hinv & Hl). split.
  - destruct (ring_run_guarded cs _ Hty Hinv Hl Hg)
      as (rs & rb & Hrun & _ & _ & _ & Hq).
    rewrite ring_contents_empty in Hq by reflexivity. simpl in Hq.
    exists rs, rb. split; [exact Hrun |]. split.
    + intros i v Hi. rewrite Hq. apply lookup_app_l_Some. exact Hi.
    + intros He. apply ring_empty_true in He.
      rewrite ring_contents_empty, app_nil_r in Hq by exact He.
      symmetry. exact Hq.
  - intros k.
    destruct (ring_run_guarded _ _ Hty Hinv Hl (ring_guarded_take cs _ k Hg))
      as (rs & rb & Hrun & _ & Hinv' & _).
    exists rs, rb, (RingBuffer.size_ rb).
    split; [exact Hrun |]. split; [reflexivity | apply Hinv'].
Qed.

(** C4.  [N] writes into an empty buffer all return and leave it full;
    one more write throws [BufferOverflow] and leaves the object as it
    was, count, indices and slots, with [size()] still [N]. *)
Theorem ring_overflow_law rb (vs : list T) v :
  RingBuffer.reachable N T_default rb ->
  RingBuffer.empty rb = Returns true rb ->
  Z.of_nat (length vs) = N ->
  exists rb',
    RingBuffer.run N (map RingBuffer.Write vs) rb
    = Returns (map (fun _ => RingBuffer.Written) vs) rb' /\
    RingBuffer.full N rb' = Returns true rb' /\
    RingBuffer.write N v rb' = Throws Cxx.throw_BufferOverflow rb' /\
    RingBuffer.size rb' = Returns N rb'.
Proof.
  intros Hr He Hlen. apply ring_empty_true in He.
  destruct (ring_reachable_wf rb Hr) as (Hty & Hinv & _).
  destruct (ring_run_writes vs _ Hty Hinv) as (rb' & Hrun & _ & _ & Hsz).
  { lia. }
  rewrite He, Hlen in Hsz. simpl in Hsz. exists rb'.
  split; [exact Hrun |]. split; [apply ring_full_true; exact Hsz |].
  split; [apply ring_write_full; exact Hsz |].
  unfold RingBuffer.size, gets. rewrite Hsz. reflexivity.
Qed.

(** C8.  The bounds [0 <= size_ <= N], [0 <= head_ < N] and
    [0 <= tail_ < N] hold of the constructed buffer; every operation,
    whether it returns or throws, is defined on a buffer within them and
    leaves it within them; so they hold of every state a program can
    reach; and [empty()] answers true exactly when the count is [0],
    [full()] exactly when it is [N]. *)
Theorem ring_bounds_invariant :
  RingBuffer.invariant N (RingBuffer.init N T_default) /\
  (forall rb c,
     RingBuffer.array_typed N rb ->
     RingBuffer.invariant N rb ->
     exists rb',
       Cxx.state_after (RingBuffer.exec N c rb) = Some rb' /\
       RingBuffer.array_typed N rb' /\
       RingBuffer.invariant N rb') /\
  (forall rb,
     RingBuffer.reachable N T_default rb -> RingBuffer.invariant N rb) /\
  (forall rb,
     (RingBuffer.size_ rb = 0 <-> RingBuffer.empty rb = Returns true rb) /\
     (RingBuffer.size_ rb = N <-> RingBuffer.full N rb = Returns true rb)).
Proof.
  split; [apply ring_init_wf |]. split; [| split].
  - intros rb c Hty Hinv.
    destruct (ring_exec_step c rb Hty Hinv) as (rb' & Hst & Hty' & Hinv' & _).
    exists rb'. auto.
  - intros rb Hr. apply (ring_reachable_wf rb Hr).
  - intros rb. split; symmetry;
      [apply ring_empty_true | apply ring_full_true].
Qed.

(** C9.  In every state reached from the constructed buffer the write
    index is the read index advanced by the count, modulo [N]; a call
    that returns from such a state leaves that so, and a call that
    throws leaves the object as it was. *)
Theorem ring_tail_is_head_plus_size rb :
  RingBuffer.reachable N T_default rb ->
  RingBuffer.tail_ rb = (RingBuffer.head_ rb + RingBuffer.size_ rb) mod N /\
  (forall c,
     match RingBuffer.exec N c rb with
     | Returns _ rb' =>
         RingBuffer.tail_ rb'
         = (RingBuffer.head_ rb' + RingBuffer.size_ rb') mod N
     | Throws _ rb' => rb' = rb
     | Undefined => False
     end).
Proof.
  intros Hr. destruct (ring_reachable_wf rb Hr) as (Hty & Hinv & Hl).
  split; [exact Hl |]. intros c.
  destruct (ring_exec_step c rb Hty Hinv) as (rb' & Hst & _ & _ & Hl').
  specialize (Hl' Hl).
  destruct (RingBuffer.exec N c rb) as [r rb1 | e rb1 |] eqn:Hex.
  - simpl in Hst. injection Hst as ->. exact Hl'.
  - clear Hst Hl'. destruct c as [v | | | | |];
      unfold RingBuffer.exec, Cxx.bind in Hex; try discriminate Hex.
    + destruct (Z.eq_dec (RingBuffer.size_ rb) N) as [Hf | Hf].
      * rewrite ring_write_full in Hex by exact Hf. congruence.
      * rewrite ring_write_spec in Hex by assumption. discriminate Hex.
    + destruct (Z.eq_dec (RingBuffer.size_ rb) 0) as [He | He].
      * rewrite ring_read_empty in Hex by exact He. congruence.
      * destruct (ring_read_spec rb Hty Hinv He) as (x & _ & Hrd).
        rewrite Hrd in Hex. discriminate Hex.
  - discriminate Hst.
Qed.
End RingBufferLaws.

(** The statement of C2 for [RingBuffer<int, 3>] at write 1, write 2,
    write 3, read, write 4, read, read, read. *)
Lemma ring_fifo_law_witness :
  1 <= 3 /\ 3 < Cxx.size_t_modulus /\
  exists rs rb,
    RingBuffer.run 3
      [RingBuffer.Write 1; RingBuffer.Write 2; RingBuffer.Write 3;
       RingBuffer.Read; RingBuffer.Write 4;
       RingBuffer.Read; RingBuffer.Read; RingBuffer.Read]
      (RingBuffer.init 3 0) = Returns rs rb /\
    (forall i v,
       RingBuffer.got rs !! i = Some v ->
       RingBuffer.written
         [RingBuffer.Write 1; RingBuffer.Write 2; RingBuffer.Write 3;
          RingBuffer.Read; RingBuffer.Write 4;
          RingBuffer.Read; RingBuffer.Read; RingBuffer.Read] !! i = Some v) /\
    (RingBuffer.empty rb = Returns true rb ->
     RingBuffer.got rs
     = RingBuffer.written
         [RingBuffer.Write 1; RingBuffer.Write 2; RingBuffer.Write 3;
          RingBuffer.Read; RingBuffer.Write 4;
          RingBuffer.Read; RingBuffer.Read; RingBuffer.Read]).
Proof.
  split; [lia |]. split; [reflexivity |].
  apply (ring_fifo_law 3 ltac:(lia) ltac:(reflexivity) 0
           [RingBuffer.Write 1; RingBuffer.Write 2; RingBuffer.Write 3;
            RingBuffer.Read; RingBuffer.Write 4;
            RingBuffer.Read; RingBuffer.Read; RingBuffer.Read]).
  reflexivity.
Defined.

(** C2 as first stated asks for the values read to be all the values
    written.  The run of one write into a [RingBuffer<int, 3>] meets the
    conditions, reads nothing and has written 1. *)
Lemma ring_fifo_reads_fall_short :
  RingBuffer.guarded 3 [RingBuffer.Write 1] (RingBuffer.init 3 0) = true /\
  exists rs rb,
    RingBuffer.run 3 [RingBuffer.Write 1] (RingBuffer.init 3 0)
    = Returns rs rb /\
    RingBuffer.got rs = [] /\
    RingBuffer.written [RingBuffer.Write 1] = [1] /\
    RingBuffer.got rs <> RingBuffer.written [RingBuffer.Write 1].
Proof.
  split; [reflexivity |]. eexists _, _.
  split; [reflexivity |]. split; [reflexivity |]. split; [reflexivity |].
  discriminate.
Qed.

(** The statement of C4 for a constructed [RingBuffer<int, 3>], at
    writes of 1, 2, 3 and then of 4. *)
Lemma ring_overflow_law_witness :
  1 <= 3 /\ 3 < Cxx.size_t_modulus /\
  exists rb,
    RingBuffer.run 3 (map RingBuffer.Write [1; 2; 3]) (RingBuffer.init 3 0)
    = Returns (map (fun _ => RingBuffer.Written) [1; 2; 3]) rb /\
    RingBuffer.full 3 rb = Returns true rb /\
    RingBuffer.write 3 4 rb = Throws Cxx.throw_BufferOverflow rb /\
    RingBuffer.size rb = Returns 3 rb.
Proof.
  split; [lia |]. split; [reflexivity |].
  apply (ring_overflow_law 3 ltac:(lia) ltac:(reflexivity) 0
           (RingBuffer.init 3 0) [1; 2; 3] 4).
  - apply RingBuffer.reachable_init.
  - reflexivity.
  - reflexivity.
Defined.

(** The statement of C8 for [RingBuffer<int, 3>]. *)
Lemma ring_bounds_invariant_witness :
  1 <= 3 /\ 3 < Cxx.size_t_modulus /\
  RingBuffer.invariant 3 (RingBuffer.init 3 0).
Proof.
  split; [lia |]. split; [reflexivity |].
  exact (proj1 (ring_bounds_invariant 3 ltac:(lia) ltac:(reflexivity) 0)).
Defined.

(** The statement of C9 for a constructed [RingBuffer<int, 3>]. *)
Lemma ring_tail_is_head_plus_size_witness :
  1 <= 3 /\ 3 < Cxx.size_t_modulus /\
  RingBuffer.reachable 3 0 (RingBuffer.init 3 0) /\
  RingBuffer.tail_ (RingBuffer.init 3 0)
  = (RingBuffer.head_ (RingBuffer.init 3 0)
     + RingBuffer.size_ (RingBuffer.init 3 0)) mod 3.
Proof.
  split; [lia |]. split; [reflexivity |].
  split; [apply RingBuffer.reachable_init |].
  apply (ring_tail_is_head_plus_size 3 ltac:(lia) ltac:(reflexivity) 0
           (RingBuffer.init 3 0)).
  apply RingBuffer.reachable_init.
Defined.

(** ** Underflow, the one-slot buffer and the buffer without slots *)

(** C5.  On an empty stack [pop()] and [top()] throw [BufferUnderflow],
    and on an empty ring buffer of any capacity [read()] does; each
    leaves its object as it was, and [size()] answers 0. *)
Theorem underflow_law {T : Type} (N : Z)
    (s : Stack.object T) (rb : RingBuffer.object T) :
  Stack.empty s = Returns true s ->
  RingBuffer.empty rb = Returns true rb ->
  Stack.pop s = Throws Cxx.throw_BufferUnderflow s /\
  Stack.top s = Throws Cxx.throw_BufferUnderflow s /\
  Stack.size s = Returns 0 s /\
  RingBuffer.read N rb = Throws Cxx.throw_BufferUnderflow rb /\
  RingBuffer.size rb = Returns 0 rb.
Proof.
  intros Hs Hrb. apply stack_empty_true in Hs. apply ring_empty_true in Hrb.
  split; [apply stack_pop_empty; exact Hs |].
  split; [apply stack_top_empty; exact Hs |].
  split; [unfold Stack.size, gets; rewrite Hs; reflexivity |].
  split; [apply ring_read_empty; exact Hrb |].
  unfold RingBuffer.size, gets. rewrite Hrb. reflexivity.
Qed.

(** The statement of C5 at a constructed [Stack<int>] and a constructed
    [RingBuffer<int, 3>]. *)
Lemma underflow_law_witness :
  Stack.pop (T:=Z) Stack.init = Throws Cxx.throw_BufferUnderflow Stack.init /\
  Stack.top (T:=Z) Stack.init = Throws Cxx.throw_BufferUnderflow Stack.init /\
  Stack.size (T:=Z) Stack.init = Returns 0 Stack.init /\
  RingBuffer.read 3 (RingBuffer.init 3 0)
  = Throws Cxx.throw_BufferUnderflow (RingBuffer.init 3 0) /\
  RingBuffer.size (RingBuffer.init 3 0) = Returns 0 (RingBuffer.init 3 0).
Proof.
  apply (underflow_law 3 Stack.init (RingBuffer.init 3 0)); reflexivity.
Defined.

(** C7.  On an empty [RingBuffer<T, 1>], [write(v)] followed at once by
    [read()] returns [v] and leaves the buffer empty, with [size()] 0. *)
Theorem ring_one_slot_round_trip {T : Type} (T_default v : T)
    (rb : RingBuffer.object T) :
  RingBuffer.reachable 1 T_default rb ->
  RingBuffer.empty rb = Returns true rb ->
  exists rb',
    (do _ <- RingBuffer.write 1 v; RingBuffer.read 1) rb = Returns v rb' /\
    RingBuffer.empty rb' = Returns true rb' /\
    RingBuffer.size rb' = Returns 0 rb'.
Proof.
  intros Hr He. apply ring_empty_true in He.
  assert (H1 : 1 < Cxx.size_t_modulus) by reflexivity.
  destruct (ring_reachable_wf 1 ltac:(lia) H1 T_default rb Hr)
    as (Hty & Hinv & Hl).
  assert (Hf : RingBuffer.size_ rb <> 1) by lia.
  destruct (ring_contents_write 1 ltac:(lia) H1 v rb Hty Hinv Hl Hf)
    as (rb1 & Hw & Hc).
  destruct (ring_write_step 1 ltac:(lia) H1 v rb Hty Hinv)
    as (rb1' & Hst & Hty1 & Hinv1 & _).
  rewrite Hw in Hst. simpl in Hst. injection Hst as <-.
  assert (Hn : RingBuffer.size_ rb1 = 1).
  { rewrite ring_write_spec in Hw by (assumption || lia).
    injection Hw as <-. simpl. lia. }
  assert (Hne : RingBuffer.size_ rb1 <> 0) by lia.
  destruct (ring_contents_read 1 ltac:(lia) H1 rb1 Hty1 Hinv1 Hne)
    as (x & rb2 & Hrd & Hc2).
  assert (Hn2 : RingBuffer.size_ rb2 = 0).
  { destruct (ring_read_spec 1 ltac:(lia) H1 rb1 Hty1 Hinv1 Hne)
      as (y & _ & Hrd').
    rewrite Hrd' in Hrd. injection Hrd as _ <-. simpl. lia. }
  rewrite Hc, ring_contents_empty in Hc2 by exact He.
  simpl in Hc2. injection Hc2 as <- _.
  exists rb2. unfold Cxx.bind. rewrite Hw, Hrd.
  split; [reflexivity |]. split; [apply ring_empty_true; exact Hn2 |].
  unfold RingBuffer.size, gets. rewrite Hn2. reflexivity.
Qed.

(** The statement of C7 at a constructed [RingBuffer<int, 1>] and 7. *)
Lemma ring_one_slot_round_trip_witness :
  exists rb',
    (do _ <- RingBuffer.write 1 7; RingBuffer.read 1) (RingBuffer.init 1 0)
    = Returns 7 rb' /\
    RingBuffer.empty rb' = Returns true rb' /\
    RingBuffer.size rb' = Returns 0 rb'.
Proof.
  apply (ring_one_slot_round_trip 0 7 (RingBuffer.init 1 0)).
  - apply RingBuffer.reachable_init.
  - reflexivity.
Defined.

Lemma ring_zero_reachable {T : Type} (T_default : T)
    (rb : RingBuffer.object T) :
  RingBuffer.reachable 0 T_default rb -> rb = RingBuffer.init 0 T_default.
Proof.
  induction 1 as [| rb c rb' _ IH Hst]; [reflexivity |].
  subst rb. destruct c; simpl in Hst; injection Hst as <-; reflexivity.
Qed.

(** C10.  A [RingBuffer<T, 0>] never leaves its constructed state; on it
    [empty()] and [full()] both answer true, every [write] throws
    [BufferOverflow] and every [read] throws [BufferUnderflow], so that
    no call reaches the remainder by [N], which has no defined result
    for [N = 0], and every call ends defined. *)
Theorem ring_no_slot {T : Type} (T_default : T) (rb : RingBuffer.object T) :
  RingBuffer.reachable 0 T_default rb ->
  RingBuffer.empty rb = Returns true rb /\
  RingBuffer.full 0 rb = Returns true rb /\
  (forall v, RingBuffer.write 0 v rb = Throws Cxx.throw_BufferOverflow rb) /\
  RingBuffer.read 0 rb = Throws Cxx.throw_BufferUnderflow rb /\
  (forall c, exists rb',
     Cxx.state_after (RingBuffer.exec 0 c rb) = Some rb') /\
  (forall x, Cxx.umod x 0 rb = Undefined).
Proof.
  intros Hr. apply ring_zero_reachable in Hr. subst rb.
  repeat split.
  intros c. destruct c; eexists; reflexivity.
Qed.

(** The statement of C10 at a constructed [RingBuffer<int, 0>]. *)
Lemma ring_no_slot_witness :
  RingBuffer.empty (RingBuffer.init 0 0) = Returns true (RingBuffer.init 0 0) /\
  RingBuffer.full 0 (RingBuffer.init 0 0) = Returns true (RingBuffer.init 0 0).
Proof.
  destruct (ring_no_slot 0 (RingBuffer.init 0 0)) as (He & Hf & _).
  - apply RingBuffer.reachable_init.
  - split; assumption.
Defined.

(** * Further laws of the containers *)

(** ** Stack *)

Section StackFurtherLaws.
Context {T : Type}.
Implicit Types (s : Stack.object T) (d : list T) (v : T).

(** [push(v)] followed by [pop()] hands [v] back and leaves the stack as
    it was before the push, whatever it held. *)
Theorem stack_push_pop_round_trip s v :
  (do _ <- Stack.push v; Stack.pop) s = Returns v s.
Proof.
  destruct s as [d]. unfold Cxx.bind at 1. rewrite stack_push_spec.
  cbn [Stack.data_]. apply stack_pop_snoc.
Qed.



(** [clear()] empties any stack: after it [size()] is 0, [empty()] is
    true, and [pop()] and [top()] throw [BufferUnderflow]. *)
Theorem stack_clear_then_underflow s :
  exists s',
    Stack.clear s = Returns tt s' /\
    Stack.size s' = Returns 0 s' /\
    Stack.empty s' = Returns true s' /\
    (do _ <- Stack.clear; Stack.pop) s = Throws Cxx.throw_BufferUnderflow s' /\
    (do _ <- Stack.clear; Stack.top) s = Throws Cxx.throw_BufferUnderflow s'.
Proof. exists Stack.init. repeat split. Qed.


(** [empty()] answers true exactly when [size()] answers 0. *)
Theorem stack_empty_iff_size_zero s :
  Stack.empty s = Returns true s <-> Stack.size s = Returns 0 s.
Proof.
  rewrite stack_empty_true. unfold Stack.size, gets. split.
  - intros ->. reflexivity.
  - intros H. destruct s as [[| x d]]; [reflexivity |].
    simpl in H. injection H as H. lia.
Qed.
End StackFurtherLaws.


(** ** RingBuffer *)

Section RingBufferFurtherLaws.
Context {T : Type}.
Variable N : Z.
Implicit Types (rb : RingBuffer.object T) (v : T).
Implicit Types (cs : list (RingBuffer.call T)).

Lemma ring_write_throws v rb e rb' :
  RingBuffer.write N v rb = Throws e rb' ->
  e = Cxx.throw_BufferOverflow /\ rb' = rb /\ RingBuffer.size_ rb = N.
Proof.
  destruct (Z.eq_dec (RingBuffer.size_ rb) N) as [Hf | Hf].
  - rewrite ring_write_full by exact Hf. intros H. injection H as <- <-. auto.
  - unfold RingBuffer.write, RingBuffer.full, Cxx.bind, gets, modify; simpl.
    rewrite (proj2 (Z.eqb_neq _ _) Hf).
    unfold Cxx.array_set. destruct (Cxx.in_bounds _ _); [| discriminate].
    unfold ret at 1. simpl. unfold Cxx.umod.
    destruct (N =? 0); discriminate.
Qed.

Lemma ring_read_throws rb e rb' :
  RingBuffer.read N rb = Throws e rb' ->
  e = Cxx.throw_BufferUnderflow /\ rb' = rb /\ RingBuffer.size_ rb = 0.
Proof.
  destruct (Z.eq_dec (RingBuffer.size_ rb) 0) as [He | He].
  - rewrite ring_read_empty by exact He. intros H. injection H as <- <-. auto.
  - unfold RingBuffer.read, RingBuffer.empty, Cxx.bind, gets, modify; simpl.
    rewrite (proj2 (Z.eqb_neq _ _) He).
    unfold Cxx.array_get.
    destruct (RingBuffer.buf_ rb !! _); [| discriminate].
    destruct (Cxx.in_bounds _ _); [| discriminate].
    unfold ret at 1. simpl. unfold Cxx.umod.
    destruct (N =? 0); discriminate.
Qed.

(** Whatever the capacity and whatever state the object is in, a call
    that throws has changed nothing: the only throws are
    [BufferOverflow] from [write] on a full buffer and [BufferUnderflow]
    from [read] on an empty one, both raised before any member is
    assigned.  The four observers never throw. *)
Theorem ring_throw_is_atomic c rb e rb' :
  RingBuffer.exec N c rb = Throws e rb' ->
  rb' = rb /\
  ((exists v, c = RingBuffer.Write v) /\
   e = Cxx.throw_BufferOverflow /\ RingBuffer.full N rb = Returns true rb
   \/
   c = RingBuffer.Read /\
   e = Cxx.throw_BufferUnderflow /\ RingBuffer.empty rb = Returns true rb).
Proof.
  destruct c as [v | | | | |]; unfold RingBuffer.exec, Cxx.bind;
    try discriminate.
  - destruct (RingBuffer.write N v rb) as [a s | e0 s |] eqn:Hw;
      try discriminate.
    intros H. injection H as <- <-.
    destruct (ring_write_throws v rb _ _ Hw) as (-> & -> & Hf).
    split; [reflexivity |]. left. split; [eauto |].
    split; [reflexivity | apply ring_full_true; exact Hf].
  - destruct (RingBuffer.read N rb) as [a s | e0 s |] eqn:Hr;
      try discriminate.
    intros H. injection H as <- <-.
    destruct (ring_read_throws rb _ _ Hr) as (-> & -> & He).
    split; [reflexivity |]. right. split; [reflexivity |].
    split; [reflexivity | apply ring_empty_true; exact He].
Qed.

Hypothesis N_pos : 1 <= N.
Hypothesis N_size_t : N < Cxx.size_t_modulus.
Variable T_default : T.

Lemma ring_walk_length (buf : list T) k : forall i,
  Z.of_nat (length buf) = N ->
  0 <= i < N ->
  length (RingBuffer.walk N buf i k) = k.
Proof.
  induction k as [| k IH]; intros i Hlen Hi; [reflexivity |].
  destruct (lookup_lt_is_Some_2 buf (Z.to_nat i)) as [x Hx]; [lia |].
  simpl. rewrite Hx. simpl. f_equal.
  apply IH; [exact Hlen | apply ring_next_bound; exact N_pos].
Qed.

Lemma ring_contents_length rb :
  RingBuffer.array_typed N rb ->
  RingBuffer.invariant N rb ->
  Z.of_nat (length (RingBuffer.contents N rb)) = RingBuffer.size_ rb.
Proof.
  intros Hty (Hs & Hh & _). unfold RingBuffer.contents.
  rewrite ring_walk_length by assumption. lia.
Qed.

Lemma ring_run_app cs1 cs2 rb rs1 rb1 rs2 rb2 :
  RingBuffer.run N cs1 rb = Returns rs1 rb1 ->
  RingBuffer.run N cs2 rb1 = Returns rs2 rb2 ->
  RingBuffer.run N (cs1 ++ cs2) rb = Returns (rs1 ++ rs2) rb2.
Proof.
  revert rb rs1. induction cs1 as [| c cs1 IH]; intros rb rs1 H1 H2.
  - simpl in H1. injection H1 as <- <-. exact H2.
  - simpl in *. unfold Cxx.bind at 1 in H1. unfold Cxx.bind at 1.
    destruct (RingBuffer.exec N c rb) as [r rb0 | |]; try discriminate.
    unfold Cxx.bind at 1 in H1. unfold Cxx.bind at 1.
    destruct (RingBuffer.run N cs1 rb0) as [rs rb1' | |] eqn:Hr;
      try discriminate.
    injection H1 as <- <-. rewrite (IH _ _ Hr H2). reflexivity.
Qed.

(** Writes into free slots append to the values held. *)
Lemma ring_run_writes_contents (vs : list T) : forall rb,
  RingBuffer.array_typed N rb ->
  RingBuffer.invariant N rb ->
  RingBuffer.linked N rb ->
  RingBuffer.size_ rb + Z.of_nat (length vs) <= N ->
  exists rb',
    RingBuffer.run N (map RingBuffer.Write vs) rb
    = Returns (map (fun _ => RingBuffer.Written) vs) rb' /\
    RingBuffer.array_typed N rb' /\
    RingBuffer.invariant N rb' /\
    RingBuffer.linked N rb' /\
    RingBuffer.contents N rb' = RingBuffer.contents N rb ++ vs.
Proof.
  induction vs as [| v vs IH]; intros rb Hty Hinv Hl Hroom.
  - exists rb. simpl. rewrite app_nil_r. auto.
  - simpl in Hroom.
    assert (Hf : RingBuffer.size_ rb <> N) by lia.
    destruct (ring_contents_write N N_pos N_size_t v rb Hty Hinv Hl Hf)
      as (rb1 & Hw & Hc).
    destruct (ring_write_step N N_pos N_size_t v rb Hty Hinv)
      as (rb1' & Hst & Hty1 & Hinv1 & Hl1).
    rewrite Hw in Hst. simpl in Hst. injection Hst as <-.
    assert (Hsz : RingBuffer.size_ rb1 = RingBuffer.size_ rb + 1).
    { rewrite ring_write_spec in Hw by assumption. injection Hw as <-.
      reflexivity. }
    destruct (IH rb1 Hty1 Hinv1 (Hl1 Hl)) as (rb' & Hrun & ? & ? & ? & Hc').
    { lia. }
    exists rb'. cbn [map RingBuffer.run RingBuffer.exec].
    unfold Cxx.bind at 1 2. rewrite Hw.
    unfold ret at 1. unfold Cxx.bind at 1. rewrite Hrun.
    repeat (split; [first [reflexivity | assumption] |]).
    rewrite Hc', Hc, <- app_assoc. reflexivity.
Qed.

(** As many reads as there are values held hand them back, the oldest
    first, and empty the buffer. *)
Lemma ring_run_reads (xs : list T) : forall rb,
  RingBuffer.array_typed N rb ->
  RingBuffer.invariant N rb ->
  RingBuffer.contents N rb = xs ->
  exists rb',
    RingBuffer.run N (replicate (length xs) RingBuffer.Read) rb
    = Returns (map RingBuffer.Got xs) rb' /\
    RingBuffer.size_ rb' = 0.
Proof.
  induction xs as [| x xs IH]; intros rb Hty Hinv Hc.
  - exists rb. split; [reflexivity |].
    pose proof (ring_contents_length rb Hty Hinv) as Hlen.
    rewrite Hc in Hlen. simpl in Hlen. lia.
  - assert (Hne : RingBuffer.size_ rb <> 0).
    { pose proof (ring_contents_length rb Hty Hinv) as Hlen.
      rewrite Hc in Hlen. simpl in Hlen. lia. }
    destruct (ring_contents_read N N_pos N_size_t rb Hty Hinv Hne)
      as (y & rb1 & Hr & Hc1).
    destruct (ring_read_step N N_pos N_size_t rb Hty Hinv)
      as (rb1' & Hst & Hty1 & Hinv1 & _).
    rewrite Hr in Hst. simpl in Hst. injection Hst as <-.
    rewrite Hc in Hc1. injection Hc1 as <- Hc1.
    destruct (IH rb1 Hty1 Hinv1 (eq_sym Hc1)) as (rb' & Hrun & Hz).
    exists rb'. cbn [length replicate map RingBuffer.run RingBuffer.exec].
    unfold Cxx.bind at 1 2. rewrite Hr.
    unfold ret at 1. unfold Cxx.bind at 1. rewrite Hrun.
    split; [reflexivity | exact Hz].
Qed.

(** Writing up to [N] values into an empty buffer and then reading as
    many hands the values back in the order written and leaves the
    buffer empty, wherever in the array the indices stood. *)
Theorem ring_write_then_drain rb (vs : list T) :
  RingBuffer.reachable N T_default rb ->
  RingBuffer.empty rb = Returns true rb ->
  Z.of_nat (length vs) <= N ->
  exists rb',
    RingBuffer.run N
      (map RingBuffer.Write vs ++ replicate (length vs) RingBuffer.Read) rb
    = Returns (map (fun _ => RingBuffer.Written) vs ++ map RingBuffer.Got vs)
        rb' /\
    RingBuffer.empty rb' = Returns true rb'.
Proof.
  intros Hr He Hlen. apply ring_empty_true in He.
  destruct (ring_reachable_wf N N_pos N_size_t T_default rb Hr)
    as (Hty & Hinv & Hl).
  destruct (ring_run_writes_contents vs rb Hty Hinv Hl)
    as (rb1 & Hrun1 & Hty1 & Hinv1 & _ & Hc); [lia |].
  rewrite (ring_contents_empty N rb He) in Hc. simpl in Hc.
  destruct (ring_run_reads vs rb1 Hty1 Hinv1 Hc) as (rb2 & Hrun2 & Hz).
  exists rb2. split; [| apply ring_empty_true; exact Hz].
  exact (ring_run_app _ _ _ _ _ _ _ Hrun1 Hrun2).
Qed.

(** In a run from the constructed buffer in which no write meets a full
    buffer and no read an empty one, [size()] ends as the number of
    values written less the number of values read. *)
Theorem ring_size_counts cs :
  RingBuffer.guarded N cs (RingBuffer.init N T_default) = true ->
  exists rs rb,
    RingBuffer.run N cs (RingBuffer.init N T_default) = Returns rs rb /\
    RingBuffer.size rb
    = Returns (Z.of_nat (length (RingBuffer.written cs))
               - Z.of_nat (length (RingBuffer.got rs))) rb.
Proof.
  intros Hg.
  destruct (ring_init_wf N N_pos T_default) as (Hty & Hinv & Hl).
  destruct (ring_run_guarded N N_pos N_size_t cs _ Hty Hinv Hl Hg)
    as (rs & rb & Hrun & Hty' & Hinv' & _ & Hq).
  exists rs, rb. split; [exact Hrun |].
  apply (f_equal (@length T)) in Hq. rewrite !length_app in Hq.
  pose proof (ring_contents_length rb Hty' Hinv') as Hlen.
  rewrite ring_contents_empty in Hq by reflexivity. simpl in Hq.
  unfold RingBuffer.size, gets. f_equal. lia.
Qed.

(** With at least one slot a buffer is never both empty and full; a
    write that returns leaves it non-empty and a read that returns leaves
    it not full. *)
Theorem ring_flags_after_calls rb :
  RingBuffer.reachable N T_default rb ->
  ~ (RingBuffer.empty rb = Returns true rb /\
     RingBuffer.full N rb = Returns true rb) /\
  (forall v rb',
     RingBuffer.write N v rb = Returns tt rb' ->
     RingBuffer.empty rb' = Returns false rb') /\
  (forall x rb',
     RingBuffer.read N rb = Returns x rb' ->
     RingBuffer.full N rb' = Returns false rb').
Proof.
  intros Hr.
  destruct (ring_reachable_wf N N_pos N_size_t T_default rb Hr)
    as (Hty & Hinv & _).
  pose proof Hinv as (Hs & _). split; [| split].
  - intros [He Hf]. apply ring_empty_true in He.
    apply ring_full_true in Hf. lia.
  - intros v rb' Hw.
    destruct (Z.eq_dec (RingBuffer.size_ rb) N) as [Hf | Hf].
    + rewrite ring_write_full in Hw by exact Hf. discriminate Hw.
    + rewrite ring_write_spec in Hw by assumption. injection Hw as <-.
      unfold RingBuffer.empty, gets. simpl.
      rewrite (proj2 (Z.eqb_neq _ _)) by lia. reflexivity.
  - intros x rb' Hrd.
    destruct (Z.eq_dec (RingBuffer.size_ rb) 0) as [He | He].
    + rewrite ring_read_empty in Hrd by exact He. discriminate Hrd.
    + destruct (ring_read_spec N N_pos N_size_t rb Hty Hinv He)
        as (y & _ & Hrd').
      rewrite Hrd' in Hrd. injection Hrd as _ <-.
      unfold RingBuffer.full, gets. simpl.
      rewrite (proj2 (Z.eqb_neq _ _)) by lia. reflexivity.
Qed.
End RingBufferFurtherLaws.

(** [ring_throw_is_atomic] at a write into a full [RingBuffer<int, 2>]. *)
Lemma ring_throw_is_atomic_witness :
  RingBuffer.exec 2 (RingBuffer.Write 9)
    {| RingBuffer.buf_ := [1; 2]; RingBuffer.head_ := 1;
       RingBuffer.tail_ := 1; RingBuffer.size_ := 2 |}
  = Throws Cxx.throw_BufferOverflow
      {| RingBuffer.buf_ := [1; 2]; RingBuffer.head_ := 1;
         RingBuffer.tail_ := 1; RingBuffer.size_ := 2 |} /\
  RingBuffer.full 2
    {| RingBuffer.buf_ := [1; 2]; RingBuffer.head_ := 1;
       RingBuffer.tail_ := 1; RingBuffer.size_ := 2 |}
  = Returns true
      {| RingBuffer.buf_ := [1; 2]; RingBuffer.head_ := 1;
         RingBuffer.tail_ := 1; RingBuffer.size_ := 2 |}.
Proof.
  split; [reflexivity |].
  destruct (ring_throw_is_atomic 2 (RingBuffer.Write 9)
              {| RingBuffer.buf_ := [1; 2]; RingBuffer.head_ := 1;
                 RingBuffer.tail_ := 1; RingBuffer.size_ := 2 |}
              Cxx.throw_BufferOverflow
              {| RingBuffer.buf_ := [1; 2]; RingBuffer.head_ := 1;
                 RingBuffer.tail_ := 1; RingBuffer.size_ := 2 |}
              eq_refl) as [_ [(_ & _ & H) | (H & _)]].
  - exact H.
  - discriminate H.
Defined.

(** [ring_write_then_drain] at a constructed [RingBuffer<int, 3>] and the
    values 7, 8. *)
Lemma ring_write_then_drain_witness :
  1 <= 3 /\ 3 < Cxx.size_t_modulus /\
  exists rb',
    RingBuffer.run 3
      (map RingBuffer.Write [7; 8] ++ replicate 2 RingBuffer.Read)
      (RingBuffer.init 3 0)
    = Returns (map (fun _ => RingBuffer.Written) [7; 8]
               ++ map RingBuffer.Got [7; 8]) rb' /\
    RingBuffer.empty rb' = Returns true rb'.
Proof.
  split; [lia |]. split; [reflexivity |].
  apply (ring_write_then_drain 3 ltac:(lia) ltac:(reflexivity) 0
           (RingBuffer.init 3 0) [7; 8]).
  - apply RingBuffer.reachable_init.
  - reflexivity.
  - simpl. lia.
Defined.

(** [ring_size_counts] for [RingBuffer<int, 3>] at write 1, write 2,
    read, write 3. *)
Lemma ring_size_counts_witness :
  1 <= 3 /\ 3 < Cxx.size_t_modulus /\
  exists rs rb,
    RingBuffer.run 3
      [RingBuffer.Write 1; RingBuffer.Write 2; RingBuffer.Read;
       RingBuffer.Write 3] (RingBuffer.init 3 0) = Returns rs rb /\
    RingBuffer.size rb
    = Returns (Z.of_nat (length (RingBuffer.written
                 [RingBuffer.Write 1; RingBuffer.Write 2; RingBuffer.Read;
                  RingBuffer.Write 3]))
               - Z.of_nat (length (RingBuffer.got rs))) rb.
Proof.
  split; [lia |]. split; [reflexivity |].
  apply (ring_size_counts 3 ltac:(lia) ltac:(reflexivity) 0
           [RingBuffer.Write 1; RingBuffer.Write 2; RingBuffer.Read;
            RingBuffer.Write 3]).
  reflexivity.
Defined.

(** [ring_flags_after_calls] at a constructed [RingBuffer<int, 3>]. *)
Lemma ring_flags_after_calls_witness :
  1 <= 3 /\ 3 < Cxx.size_t_modulus /\
  ~ (RingBuffer.empty (RingBuffer.init 3 0)
     = Returns true (RingBuffer.init 3 0) /\
     RingBuffer.full 3 (RingBuffer.init 3 0)
     = Returns true (RingBuffer.init 3 0)).
Proof.
  split; [lia |]. split; [reflexivity |].
  apply (ring_flags_after_calls 3 ltac:(lia) ltac:(reflexivity) 0
           (RingBuffer.init 3 0)).
  apply RingBuffer.reachable_init.
Defined.

(** ** The exceptions and Result *)

(** Every exception [Stack] and [RingBuffer] throw is taken by a handler
    for [ContainerError], for [std::runtime_error] and for
    [std::exception]; the one [Result] throws is taken by none of the
    first two; and a handler for [BufferOverflow] does not take
    [BufferUnderflow], nor the other way round. *)
Theorem container_errors_hierarchy (e : Cxx.exn) :
  Cxx.catches Cxx.std_exception e = true /\
  (Cxx.catches Cxx.ContainerError e = true <->
   e = Cxx.throw_BufferOverflow \/ e = Cxx.throw_BufferUnderflow) /\
  Cxx.catches Cxx.std_runtime_error e = Cxx.catches Cxx.ContainerError e /\
  (Cxx.catches Cxx.BufferOverflow e = true <-> e = Cxx.throw_BufferOverflow) /\
  (Cxx.catches Cxx.BufferUnderflow e = true <->
   e = Cxx.throw_BufferUnderflow).
Proof.
  destruct e; repeat split; intros H;
    first [reflexivity | discriminate H | left; reflexivity
          | right; reflexivity | destruct H as [H | H]; discriminate H
          | idtac].
  all: try (destruct H as [H | H]; first [reflexivity | discriminate H]).
Qed.

(** Of [value()] and [error()] exactly one returns on any [Result], the
    other throws, neither changes the object, and the object is the one
    [ok] or [err] builds from what was returned. *)
Theorem result_accessors {T E : Type} (r : Result.object T E) :
  (exists v,
     Result.value r = Returns v r /\ r = Result.ok v /\
     Result.error r = Throws Cxx.throw_bad_variant_access r /\
     Result.is_ok r = Returns true r)
  \/
  (exists e,
     Result.error r = Returns e r /\ r = Result.err e /\
     Result.value r = Throws Cxx.throw_bad_variant_access r /\
     Result.is_err r = Returns true r).
Proof.
  destruct r as [[v | e]]; [left; exists v | right; exists e];
    repeat split.
Qed.

(** * Laws of yoda.hpp *)

Section YodaLaws.
Context {T : Type}.
Implicit Types (values result : list T).

Lemma yoda_map_loop_spec (f : T -> T) values : forall result,
  Yoda.map_loop (Some f) values result
  = Yoda.Returned (result ++ List.map f values).
Proof.
  induction values as [| v values IH]; intros result; simpl.
  - rewrite app_nil_r. reflexivity.
  - rewrite IH. unfold Cxx.vector_push_back. rewrite <- app_assoc.
    reflexivity.
Qed.

(** [map] with a callable returns a vector as long as its input whose
    i-th element is the callable applied to the i-th input, and nothing
    more; with an empty [std::function] it returns the empty vector
    for an empty input and throws [std::bad_function_call] for any
    other. *)
Theorem yoda_map_elementwise values :
  (forall f : T -> T,
     exists out,
       Yoda.map values (Some f) = Yoda.Returned out /\
       length out = length values /\
       forall i, out !! i = f <$> values !! i) /\
  (Yoda.map values None
   = match values with
     | [] => Yoda.Returned []
     | _ :: _ => Yoda.Thrown_bad_function_call
     end).
Proof.
  split.
  - intros f. exists (List.map f values). unfold Yoda.map.
    rewrite yoda_map_loop_spec. split; [reflexivity |].
    split; [apply length_map |]. intros i. apply list_lookup_fmap.
  - destruct values; reflexivity.
Qed.

(** [find_if] with a predicate returns the first element, in vector
    order, for which the predicate holds: the element at an index below
    which the predicate fails everywhere.  It returns [std::nullopt]
    exactly when the predicate fails on every element. *)
Theorem yoda_find_if_first (p : T -> bool) values :
  (forall v,
     Yoda.find_if values (Some p) = Yoda.Returned (Some v) <->
     exists i,
       values !! i = Some v /\ p v = true /\
       forall j w, (j < i)%nat -> values !! j = Some w -> p w = false) /\
  (Yoda.find_if values (Some p) = Yoda.Returned None <->
   forall i w, values !! i = Some w -> p w = false) /\
  Yoda.find_if values (Some p) <> Yoda.Thrown_bad_function_call.
Proof.
  induction values as [| x values (IHs & IHn & IHt)].
  - split; [| split].
    + intros v. split; [discriminate |]. intros (i & Hi & _).
      rewrite lookup_nil in Hi. discriminate Hi.
    + split; [| reflexivity]. intros _ i w Hi.
      rewrite lookup_nil in Hi. discriminate Hi.
    + discriminate.
  - simpl. destruct (p x) eqn:Hpx.
    + split; [| split].
      * intros v. split.
        -- intros H. injection H as <-. exists 0%nat.
           split; [reflexivity |]. split; [exact Hpx |]. intros j w Hj. lia.
        -- intros (i & Hi & Hpv & Hbefore). destruct i as [| i].
           ++ simpl in Hi. congruence.
           ++ specialize (Hbefore 0%nat x ltac:(lia) eq_refl). congruence.
      * split; [discriminate |]. intros H.
        specialize (H 0%nat x eq_refl). congruence.
      * discriminate.
    + split; [| split].
      * intros v. rewrite IHs. split.
        -- intros (i & Hi & Hpv & Hbefore). exists (S i).
           split; [exact Hi |]. split; [exact Hpv |].
           intros [| j] w Hj Hw.
           ++ simpl in Hw. congruence.
           ++ apply (Hbefore j w); [lia | exact Hw].
        -- intros (i & Hi & Hpv & Hbefore). destruct i as [| i].
           ++ simpl in Hi. congruence.
           ++ exists i. split; [exact Hi |]. split; [exact Hpv |].
              intros j w Hj Hw. apply (Hbefore (S j) w); [lia | exact Hw].
      * rewrite IHn. split.
        -- intros H [| i] w Hi.
           ++ simpl in Hi. congruence.
           ++ apply (H i w Hi).
        -- intros H i w Hi. apply (H (S i) w Hi).
      * exact IHt.
Qed.
End YodaLaws.

(** * Laws of algorithms.hpp *)

(** ** gcd *)

Lemma gcd_loop_spec fuel : forall a b,
  0 <= a -> 0 <= b -> (Z.to_nat b < fuel)%nat ->
  Algorithms.gcd fuel a b = Algorithms.Value (Z.gcd a b).
Proof.
  induction fuel as [| fuel IH]; intros a b Ha Hb Hfuel; [lia |].
  unfold Algorithms.gcd in *. cbn [Algorithms.iterate Algorithms.gcd_step].
  destruct (Z.eqb_spec b 0) as [-> | Hne]; cbn [negb].
  - rewrite Z.gcd_0_r, Z.abs_eq by exact Ha. reflexivity.
  - pose proof (Z.mod_pos_bound a b ltac:(lia)) as Hm.
    rewrite IH by lia.
    rewrite Z.gcd_comm, Z.gcd_mod by exact Hne. rewrite Z.gcd_comm.
    reflexivity.
Qed.

(** For unsigned arguments, and as soon as the loop is allowed more
    passes than [b], [gcd] returns the greatest common divisor: a number
    that divides both arguments and that every common divisor divides.
    So [gcd(a, 0)] is [a] and [gcd(0, 0)] is 0, and the remainder is
    never taken by zero. *)
Theorem algorithms_gcd_correct fuel a b :
  0 <= a < Algorithms.unsigned_modulus ->
  0 <= b < Algorithms.unsigned_modulus ->
  (Z.to_nat b < fuel)%nat ->
  exists g,
    Algorithms.gcd fuel a b = Algorithms.Value g /\
    g = Z.gcd a b /\
    0 <= g < Algorithms.unsigned_modulus /\
    (g | a) /\ (g | b) /\
    (forall d, (d | a) -> (d | b) -> (d | g)) /\
    (b = 0 -> g = a).
Proof.
  intros Ha Hb Hfuel. exists (Z.gcd a b).
  split; [apply gcd_loop_spec; lia |]. split; [reflexivity |].
  split.
  - split; [apply Z.gcd_nonneg |].
    destruct (Z.eq_dec a 0) as [-> | Ha0].
    + rewrite Z.gcd_0_l, Z.abs_eq by lia. lia.
    + pose proof (Z.gcd_divide_l a b) as Hd.
      apply Z.divide_pos_le in Hd; lia.
  - split; [apply Z.gcd_divide_l |]. split; [apply Z.gcd_divide_r |].
    split; [intros d; apply Z.gcd_greatest |].
    intros ->. rewrite Z.gcd_0_r, Z.abs_eq; lia.
Qed.

(** [algorithms_gcd_correct] at gcd(48, 18). *)
Lemma algorithms_gcd_correct_witness :
  exists g, Algorithms.gcd 19 48 18 = Algorithms.Value g /\ g = Z.gcd 48 18.
Proof.
  destruct (algorithms_gcd_correct 19 48 18) as (g & Hg & Heq & _).
  - split; [lia | reflexivity].
  - split; [lia | reflexivity].
  - simpl. lia.
  - exists g. split; assumption.
Defined.

(** ** fibonacci *)

Lemma fib_step (n : nat) :
  Algorithms.fib (S (S n)) = Algorithms.fib (S n) + Algorithms.fib n.
Proof. reflexivity. Qed.

Lemma fib_nonneg (n : nat) : 0 <= Algorithms.fib n /\ 0 <= Algorithms.fib (S n).
Proof.
  induction n as [| n [IH0 IH1]]; [simpl; lia |].
  split; [exact IH1 |]. rewrite fib_step. lia.
Qed.

Lemma fib_monotone (n m : nat) :
  (n <= m)%nat -> Algorithms.fib n <= Algorithms.fib m.
Proof.
  induction 1 as [| m _ IH]; [lia |].
  destruct m as [| m]; [simpl in *; lia |].
  rewrite fib_step. pose proof (fib_nonneg m). lia.
Qed.

(** The pairs of consecutive Fibonacci numbers, by the recurrence. *)
Lemma fib_iter (n : nat) :
  Nat.iter n (fun ab : Z * Z => (snd ab, fst ab + snd ab)) (0, 1)
  = (Algorithms.fib n, Algorithms.fib (S n)).
Proof.
  induction n as [| n IH]; [reflexivity |].
  rewrite Nat.iter_succ, IH. cbn [fst snd]. rewrite fib_step.
  f_equal. lia.
Qed.

Lemma fib_93_94 :
  Algorithms.fib 93 < Algorithms.uint64_modulus <= Algorithms.fib 94.
Proof.
  assert (H : Nat.iter 93 (fun ab : Z * Z => (snd ab, fst ab + snd ab)) (0, 1)
              = (12200160415121876738, 19740274219868223167))
    by (vm_compute; reflexivity).
  rewrite fib_iter in H. apply pair_equal_spec in H as [H93 H94].
  rewrite H93, H94. split; [reflexivity | discriminate].
Qed.

Lemma fibonacci_loop_spec n k : forall (j fuel : nat),
  Z.of_nat (j + 2 + k) = n + 1 ->
  n < Algorithms.unsigned_modulus - 1 ->
  (k < fuel)%nat ->
  Algorithms.iterate fuel (Algorithms.fibonacci_step n)
    (Z.of_nat j + 2,
     Algorithms.fib j mod Algorithms.uint64_modulus,
     Algorithms.fib (S j) mod Algorithms.uint64_modulus)
  = Algorithms.Value (Algorithms.fib (Z.to_nat n) mod Algorithms.uint64_modulus).
Proof.
  induction k as [| k IH]; intros j fuel Hn Hmax Hfuel;
    (destruct fuel as [| fuel]; [lia |]);
    cbn [Algorithms.iterate Algorithms.fibonacci_step].
  - rewrite (proj2 (Z.leb_gt _ _)) by lia.
    replace (Z.to_nat n) with (S j) by lia. reflexivity.
  - rewrite (proj2 (Z.leb_le _ _)) by lia.
    unfold Algorithms.wrap_uint64, Algorithms.wrap_unsigned.
    rewrite <- Zplus_mod, (Z.add_comm (Algorithms.fib j)), <- fib_step.
    rewrite (Z.mod_small (Z.of_nat j + 2 + 1)) by lia.
    replace (Z.of_nat j + 2 + 1) with (Z.of_nat (S j) + 2) by lia.
    apply IH; lia.
Qed.

(** For every [n] below [UINT_MAX], once the loop is allowed [n] passes,
    [fibonacci(n)] returns the n-th Fibonacci number reduced modulo
    2^64.  That is the Fibonacci number itself up to [n = 93] and a
    different number from [n = 94] on. *)
Theorem algorithms_fibonacci_value n fuel :
  0 <= n < Algorithms.unsigned_modulus - 1 ->
  (Z.to_nat n <= fuel)%nat ->
  Algorithms.fibonacci fuel n
  = Algorithms.Value
      (Algorithms.fib (Z.to_nat n) mod Algorithms.uint64_modulus) /\
  (n <= 93 ->
   Algorithms.fibonacci fuel n
   = Algorithms.Value (Algorithms.fib (Z.to_nat n))) /\
  (93 < n ->
   Algorithms.fibonacci fuel n
   <> Algorithms.Value (Algorithms.fib (Z.to_nat n))).
Proof.
  intros Hn Hfuel.
  assert (Hval : Algorithms.fibonacci fuel n
                 = Algorithms.Value
                     (Algorithms.fib (Z.to_nat n)
                        mod Algorithms.uint64_modulus)).
  { unfold Algorithms.fibonacci. destruct (Z.leb_spec n 1) as [Hle | Hgt].
    - assert (Hc : n = 0 \/ n = 1) by lia.
      destruct Hc as [-> | ->]; reflexivity.
    - apply (fibonacci_loop_spec n (Z.to_nat n - 1) 0 fuel); lia. }
  pose proof fib_93_94 as [H93 H94].
  pose proof (fib_nonneg (Z.to_nat n)) as [Hpos _].
  split; [exact Hval |]. split.
  - intros Hle. rewrite Hval. f_equal. apply Z.mod_small.
    split; [exact Hpos |].
    pose proof (fib_monotone (Z.to_nat n) 93 ltac:(lia)). lia.
  - intros Hgt. rewrite Hval. intros Heq. injection Heq as Heq.
    pose proof (fib_monotone 94 (Z.to_nat n) ltac:(lia)).
    pose proof (Z.mod_pos_bound (Algorithms.fib (Z.to_nat n))
                  Algorithms.uint64_modulus ltac:(reflexivity)).
    lia.
Qed.

(** [algorithms_fibonacci_value] at [fibonacci(10)]. *)
Lemma algorithms_fibonacci_value_witness :
  Algorithms.fibonacci 10 10 = Algorithms.Value (Algorithms.fib 10).
Proof.
  destruct (algorithms_fibonacci_value 10 10) as (_ & H & _).
  - split; [lia | reflexivity].
  - simpl. lia.
  - apply H. lia.
Defined.

Lemma fibonacci_loop_never_ends fuel : forall i a b,
  0 <= i < Algorithms.unsigned_modulus ->
  Algorithms.iterate fuel
    (Algorithms.fibonacci_step (Algorithms.unsigned_modulus - 1)) (i, a, b)
  = Algorithms.Out_of_fuel.
Proof.
  induction fuel as [| fuel IH]; intros i a b Hi; [reflexivity |].
  cbn [Algorithms.iterate Algorithms.fibonacci_step].
  rewrite (proj2 (Z.leb_le _ _)) by lia.
  apply IH. apply Z.mod_pos_bound. reflexivity.
Qed.

(** [fibonacci(UINT_MAX)] does not return: the counter [i] is an
    [unsigned] and so never exceeds [n]; after any number of passes the
    loop is still running. *)
Theorem algorithms_fibonacci_uint_max fuel :
  Algorithms.fibonacci fuel (Algorithms.unsigned_modulus - 1)
  = Algorithms.Out_of_fuel.
Proof.
  unfold Algorithms.fibonacci.
  replace (Algorithms.unsigned_modulus - 1 <=? 1) with false by reflexivity.
  apply fibonacci_loop_never_ends. split; [lia | reflexivity].
Qed.

(** ** is_prime *)

(** A number above 1 without a divisor [d > 1] with [d * d <= n] is
    prime. *)
Lemma prime_by_small_divisors n :
  1 < n ->
  (forall d, 1 < d -> d * d <= n -> ~ (d | n)) ->
  Z.prime n.
Proof.
  intros Hn Hsmall. split; [exact Hn |].
  intros d Hd [q Hq].
  assert (Hq1 : 1 < q) by nia.
  destruct (Z_le_gt_dec (d * d) n) as [Hle | Hgt].
  - apply (Hsmall d); [lia | exact Hle | exists q; exact Hq].
  - apply (Hsmall q); [exact Hq1 | nia | exists d; lia].
Qed.

(** The divisors the loop of [is_prime] tries from [i] on. *)
Lemma is_prime_loop_spec n fuel : forall i,
  0 <= n < 65531 * 65531 ->
  5 <= i <= 65531 -> i mod 6 = 5 ->
  65531 - i < 6 * Z.of_nat fuel ->
  exists b,
    Algorithms.iterate fuel (Algorithms.is_prime_step n) i
    = Algorithms.Value b /\
    (b = true <->
     forall j, i <= j -> j mod 6 = 5 -> j * j <= n ->
               n mod j <> 0 /\ n mod (j + 2) <> 0).
Proof.
  induction fuel as [| fuel IH]; intros i Hn Hi Hi6 Hfuel; [lia |].
  cbn [Algorithms.iterate]. unfold Algorithms.is_prime_step.
  unfold Algorithms.wrap_unsigned, Algorithms.unsigned_modulus.
  change (2 ^ 32) with 4294967296.
  rewrite (Z.mod_small (i * i)) by nia.
  destruct (Z.leb_spec (i * i) n) as [Hsq | Hsq].
  - assert (Hlt0 : i < 65531) by nia.
    assert (Hlt : i <= 65525) by (Z.div_mod_to_equations; lia).
    rewrite (proj2 (Z.eqb_neq i 0)) by lia.
    rewrite (Z.mod_small (i + 2)), (Z.mod_small (i + 6)) by lia.
    destruct (Z.eqb_spec (n mod i) 0) as [Hdi | Hdi].
    { exists false. split; [reflexivity |]. split; [discriminate |].
      intros H. destruct (H i ltac:(lia) Hi6 Hsq) as [Hc _]. contradiction. }
    rewrite (proj2 (Z.eqb_neq (i + 2) 0)) by lia.
    destruct (Z.eqb_spec (n mod (i + 2)) 0) as [Hdi2 | Hdi2].
    { exists false. split; [reflexivity |]. split; [discriminate |].
      intros H. destruct (H i ltac:(lia) Hi6 Hsq) as [_ Hc]. contradiction. }
    destruct (IH (i + 6) Hn ltac:(lia)) as (b & Hb & Hiff).
    { rewrite <- Z.add_mod_idemp_l, Hi6 by lia. reflexivity. }
    { lia. }
    exists b. split; [exact Hb |]. rewrite Hiff. split.
    + intros H j Hj Hj6 Hjsq.
      destruct (Z.eq_dec j i) as [-> | Hne]; [split; assumption |].
      apply H; [Z.div_mod_to_equations; lia | exact Hj6 | exact Hjsq].
    + intros H j Hj Hj6 Hjsq. apply H; [lia | exact Hj6 | exact Hjsq].
  - exists true. split; [reflexivity |]. split; [| reflexivity].
    intros _ j Hj _ Hjsq. nia.
Qed.

(** For every [n] below 65531 * 65531 = 4294311961, and once the loop is
    allowed 10922 passes, [is_prime(n)] returns true exactly when [n] is
    a prime number. *)
Theorem algorithms_is_prime_correct n fuel :
  0 <= n < 65531 * 65531 ->
  10922 <= Z.of_nat fuel ->
  exists b,
    Algorithms.is_prime fuel n = Algorithms.Value b /\
    (b = true <-> Z.prime n).
Proof.
  intros Hn Hfuel. unfold Algorithms.is_prime.
  destruct (Z.ltb_spec n 2) as [H2 | H2].
  { exists false. split; [reflexivity |]. split; [discriminate |].
    intros [Hp _]. lia. }
  destruct (Z.ltb_spec n 4) as [H4 | H4].
  { exists true. split; [reflexivity |]. split; [| reflexivity]. intros _.
    assert (Hc : n = 2 \/ n = 3) by lia.
    destruct Hc as [-> | ->]; [exact Z.prime_2 | exact Z.prime_3]. }
  destruct (Z.eqb_spec (n mod 2) 0) as [Hm2 | Hm2].
  { exists false. split; [reflexivity |]. split; [discriminate |].
    intros [_ Hp]. exfalso.
    apply (Hp 2 ltac:(lia)). apply Z.mod_divide; lia. }
  destruct (Z.eqb_spec (n mod 3) 0) as [Hm3 | Hm3].
  { exists false. split; [reflexivity |]. split; [discriminate |].
    intros [_ Hp]. exfalso.
    apply (Hp 3 ltac:(lia)). apply Z.mod_divide; lia. }
  cbn [orb].
  destruct (is_prime_loop_spec n fuel 5 Hn ltac:(lia) eq_refl ltac:(lia))
    as (b & Hb & Hiff).
  exists b. split; [exact Hb |]. rewrite Hiff. split.
  - intros H. apply prime_by_small_divisors; [lia |].
    intros d Hd Hdsq Hdiv.
    assert (Hdn : n mod d = 0) by (apply Z.mod_divide; [lia | exact Hdiv]).
    destruct Hdiv as [q Hq].
    assert (Hr : d mod 6 = 0 \/ d mod 6 = 1 \/ d mod 6 = 2 \/ d mod 6 = 3
                 \/ d mod 6 = 4 \/ d mod 6 = 5)
      by (pose proof (Z.mod_pos_bound d 6 ltac:(lia)); lia).
    pose proof (Z.div_mod d 6 ltac:(lia)) as Hd6.
    destruct Hr as [Hr | [Hr | [Hr | [Hr | [Hr | Hr]]]]].
    + apply Hm2. apply Z.mod_divide; [lia |].
      exists (q * (3 * (d / 6))). lia.
    + destruct (H (d - 2)) as [_ Hc]; try nia.
      { replace (d - 2) with (6 * (d / 6 - 1) + 5) by lia.
        rewrite Z.add_comm, Z.mul_comm, Z_mod_plus_full. reflexivity. }
      apply Hc. replace (d - 2 + 2) with d by lia. exact Hdn.
    + apply Hm2. apply Z.mod_divide; [lia |].
      exists (q * (3 * (d / 6) + 1)). lia.
    + apply Hm3. apply Z.mod_divide; [lia |].
      exists (q * (2 * (d / 6) + 1)). lia.
    + apply Hm2. apply Z.mod_divide; [lia |].
      exists (q * (3 * (d / 6) + 2)). lia.
    + destruct (H d) as [Hc _]; lia.
  - intros [_ Hp] j Hj Hj6 Hjsq.
    split; intros Hc.
    + apply (Hp j ltac:(nia)). apply Z.mod_divide; [lia | exact Hc].
    + apply (Hp (j + 2) ltac:(nia)). apply Z.mod_divide; [lia | exact Hc].
Qed.

(** [algorithms_is_prime_correct] at [is_prime(97)]. *)
Lemma algorithms_is_prime_correct_witness :
  exists b,
    Algorithms.is_prime (Z.to_nat 10922) 97 = Algorithms.Value b /\
    (b = true <-> Z.prime 97).
Proof.
  apply (algorithms_is_prime_correct 97 (Z.to_nat 10922)); lia.
Defined.

Lemma is_prime_loop_defined n fuel : forall i,
  0 <= i < 4294967296 -> i mod 2 = 1 ->
  Algorithms.iterate fuel (Algorithms.is_prime_step n) i
  <> Algorithms.Undefined_behaviour.
Proof.
  induction fuel as [| fuel IH]; intros i Hi Hodd; [discriminate |].
  cbn [Algorithms.iterate]. unfold Algorithms.is_prime_step.
  unfold Algorithms.wrap_unsigned, Algorithms.unsigned_modulus.
  change (2 ^ 32) with 4294967296.
  destruct (_ <=? n); [| discriminate].
  rewrite (proj2 (Z.eqb_neq i 0)) by (Z.div_mod_to_equations; lia).
  destruct (n mod i =? 0); [discriminate |].
  rewrite (proj2 (Z.eqb_neq ((i + 2) mod 4294967296) 0))
    by (Z.div_mod_to_equations; lia).
  destruct (n mod _ =? 0); [discriminate |].
  apply IH; Z.div_mod_to_equations; lia.
Qed.

(** [is_prime] never takes a remainder by zero, whatever its argument
    and however long it runs: the trial divisors [i] and [i + 2] stay
    odd, also after the arithmetic on them has wrapped. *)
Theorem algorithms_is_prime_defined n fuel :
  Algorithms.is_prime fuel n <> Algorithms.Undefined_behaviour.
Proof.
  unfold Algorithms.is_prime.
  destruct (n <? 2); [discriminate |].
  destruct (n <? 4); [discriminate |].
  destruct (_ || _); [discriminate |].
  apply is_prime_loop_defined; [lia | reflexivity].
Qed.

Lemma odd_square_mod_8 i : i mod 2 = 1 -> (i * i) mod 8 = 1.
Proof.
  intros Hodd. rewrite Z.mul_mod by lia.
  assert (Hr : i mod 8 = 1 \/ i mod 8 = 3 \/ i mod 8 = 5 \/ i mod 8 = 7)
    by (Z.div_mod_to_equations; lia).
  destruct Hr as [-> | [-> | [-> | ->]]]; reflexivity.
Qed.

(** With [n = 4294967291] the test [i * i <= n] holds of every odd [i]:
    the wrapped square of an odd number is 1 modulo 8, so at most
    2^32 - 7.  The loop therefore runs until a divisor is found, at the
    latest [i = n] itself. *)
Lemma is_prime_loop_runs_to_n k : forall i,
  5 <= i <= 4294967291 -> i mod 6 = 5 ->
  4294967291 - i <= 6 * Z.of_nat k ->
  Algorithms.iterate (S k) (Algorithms.is_prime_step 4294967291) i
  = Algorithms.Value false.
Proof.
  induction k as [| k IH]; intros i Hi Hi6 Hk;
    cbn [Algorithms.iterate]; unfold Algorithms.is_prime_step;
    unfold Algorithms.wrap_unsigned, Algorithms.unsigned_modulus;
    change (2 ^ 32) with 4294967296;
    (assert (Hsq : (i * i) mod 4294967296 <= 4294967291);
     [ pose proof (odd_square_mod_8 i ltac:(Z.div_mod_to_equations; lia));
       assert (H8 : ((i * i) mod 4294967296) mod 8 = 1)
         by (rewrite Z.mod_mod_divide;
             [assumption | exists 536870912; reflexivity]);
       pose proof (Z.mod_pos_bound (i * i) 4294967296 ltac:(lia));
       Z.div_mod_to_equations; lia
     | rewrite (proj2 (Z.leb_le _ _) Hsq) ]);
    rewrite (proj2 (Z.eqb_neq i 0)) by lia.
  - assert (i = 4294967291) by lia. subst i.
    rewrite Z.mod_same by lia. reflexivity.
  - destruct (Z.eqb_spec (4294967291 mod i) 0) as [Hd | Hd];
      [reflexivity |].
    rewrite (Z.mod_small (i + 2)) by lia.
    rewrite (proj2 (Z.eqb_neq (i + 2) 0)) by lia.
    destruct (Z.eqb_spec (4294967291 mod (i + 2)) 0) as [Hd2 | Hd2];
      [reflexivity |].
    assert (Hne : i <> 4294967291).
    { intros ->. apply Hd. apply Z.mod_same. lia. }
    assert (Hnext : i + 6 <= 4294967291) by (Z.div_mod_to_equations; lia).
    rewrite (Z.mod_small (i + 6)) by lia.
    apply IH; [lia | Z.div_mod_to_equations; lia | lia].
Qed.

(** Trying every [d] from 2 on, [k] of them. *)
Lemma trial_division_spec n k :
  exists b,
    Nat.iter k
      (fun dk : Z * bool => (fst dk + 1, snd dk && negb (n mod fst dk =? 0)))
      (2, true)
    = (2 + Z.of_nat k, b) /\
    (b = true -> forall d, 2 <= d < 2 + Z.of_nat k -> n mod d <> 0).
Proof.
  induction k as [| k (b & Heq & Hb)].
  - exists true. split; [reflexivity |]. intros _ d Hd. lia.
  - rewrite Nat.iter_succ, Heq. cbn [fst snd].
    exists (b && negb (n mod (2 + Z.of_nat k) =? 0)). split.
    + f_equal. lia.
    + intros Hand. apply andb_true_iff in Hand as [Hb' Hk].
      apply negb_true_iff, Z.eqb_neq in Hk. intros d Hd.
      destruct (Z.eq_dec d (2 + Z.of_nat k)) as [-> | Hne]; [exact Hk |].
      apply (Hb Hb'). lia.
Qed.

Lemma prime_4294967291 : Z.prime 4294967291.
Proof.
  apply prime_by_small_divisors; [lia |].
  intros d Hd Hsq Hdiv.
  destruct (trial_division_spec 4294967291 (Z.to_nat 65535)) as (b & Heq & Hb).
  assert (Hrun :
    Nat.iter (Z.to_nat 65535)
      (fun dk : Z * bool =>
         (fst dk + 1, snd dk && negb (4294967291 mod fst dk =? 0)))
      (2, true) = (65537, true)) by (vm_compute; reflexivity).
  rewrite Hrun in Heq. apply pair_equal_spec in Heq as [_ <-].
  apply (Hb eq_refl d); [nia |].
  apply Z.mod_divide; [lia | exact Hdiv].
Qed.

(** On machines whose [unsigned] has 32 bits, [is_prime(4294967291)]
    returns false although 4294967291 is a prime number: past
    [i = 65531] the product [i * i] wraps and the loop goes on until
    [i] is [n] itself. *)
Theorem algorithms_is_prime_large_prime :
  Z.prime 4294967291 /\
  exists fuel,
    forall more : nat,
      Algorithms.is_prime (fuel + more) 4294967291 = Algorithms.Value false.
Proof.
  split; [exact prime_4294967291 |].
  pose proof (Z2Nat.id 715827881 ltac:(lia)) as Hk.
  revert Hk. generalize (Z.to_nat 715827881). intros k Hk.
  exists (S k). intros more.
  unfold Algorithms.is_prime.
  change (4294967291 <? 2) with false.
  change (4294967291 <? 4) with false.
  change ((4294967291 mod 2 =? 0) || (4294967291 mod 3 =? 0)) with false.
  cbv iota. rewrite Nat.add_succ_l.
  apply is_prime_loop_runs_to_n; [lia | reflexivity | lia].
Qed.

(** ** insertion_sort and bubble_sort *)

Section SortedFacts.
Context {A : Type} (R : A -> A -> Prop).

Lemma Sorted_app_inv (l1 l2 : list A) :
  Sorted R (l1 ++ l2) -> Sorted R l1 /\ Sorted R l2.
Proof.
  induction l1 as [| a l1 IH]; simpl; intros H.
  - split; [constructor | exact H].
  - apply Sorted_inv in H as [Hs Hh]. destruct (IH Hs) as [H1 H2].
    split; [| exact H2]. constructor; [exact H1 |].
    destruct l1; [constructor |]. apply HdRel_inv in Hh. constructor.
    exact Hh.
Qed.

Lemma Sorted_app_join (l1 l2 : list A) :
  Sorted R l1 -> Sorted R l2 ->
  (forall a b, last l1 = Some a -> head l2 = Some b -> R a b) ->
  Sorted R (l1 ++ l2).
Proof.
  induction l1 as [| a l1 IH]; simpl; intros H1 H2 Hj; [exact H2 |].
  apply Sorted_inv in H1 as [Hs Hh]. constructor.
  - apply IH; [exact Hs | exact H2 |].
    intros x b Hx Hb. apply (Hj x b); [| exact Hb].
    destruct l1; [discriminate Hx | exact Hx].
  - destruct l1 as [| c l1]; simpl.
    + destruct l2 as [| b l2]; constructor. apply (Hj a b); reflexivity.
    + apply HdRel_inv in Hh. constructor. exact Hh.
Qed.
End SortedFacts.

Section SortLaws.
Context {T : Type} (ltb : T -> T -> bool).
Implicit Types (data pre rest tl : list T) (key x y : T).

Lemma vec_get_middle (l1 : list T) x (l2 : list T) :
  Algorithms.vec_get (l1 ++ x :: l2) (Z.of_nat (length l1)) = Some x.
Proof.
  unfold Algorithms.vec_get, Cxx.in_bounds.
  rewrite length_app. simpl.
  rewrite (proj2 (Z.leb_le _ _)), (proj2 (Z.ltb_lt _ _)) by lia. simpl.
  rewrite Nat2Z.id. apply list_lookup_middle. reflexivity.
Qed.

Lemma vec_set_middle (l1 : list T) x y (l2 : list T) :
  Algorithms.vec_set (l1 ++ x :: l2) (Z.of_nat (length l1)) y
  = Some (l1 ++ y :: l2).
Proof.
  unfold Algorithms.vec_set, Cxx.in_bounds. rewrite length_app. simpl.
  rewrite (proj2 (Z.leb_le _ _)), (proj2 (Z.ltb_lt _ _)) by lia. simpl.
  rewrite Nat2Z.id, insert_app_r_alt, Nat.sub_diag by lia. reflexivity.
Qed.

(** The inner loop of [insertion_sort] from [j = length l1]: it stops at
    the first element from the right that [key] is not less than, having
    moved the others one slot up. *)
Lemma insertion_inner_spec key (l1 : list T) : forall y tl fuel,
  (length l1 < fuel)%nat ->
  Z.of_nat (length (l1 ++ y :: tl)) < Cxx.size_t_modulus ->
  exists l1a l1b y',
    l1 = l1a ++ l1b /\
    Algorithms.iterate fuel (Algorithms.insertion_inner_step ltb key)
      (l1 ++ y :: tl, Z.of_nat (length l1))
    = Algorithms.Value (l1a ++ y' :: l1b ++ tl, Z.of_nat (length l1a)) /\
    Forall (fun e => ltb key e = true) l1b /\
    (forall x, last l1a = Some x -> ltb key x = false).
Proof.
  induction l1 as [| x l1 IH] using rev_ind; intros y tl fuel Hfuel Hsize;
    (destruct fuel as [| fuel]; [simpl in Hfuel; lia |]).
  - exists [], [], y. repeat split; [constructor | discriminate].
  - assert (Hn : Z.of_nat (length l1) + 2 + Z.of_nat (length tl)
                 < Cxx.size_t_modulus).
    { rewrite !length_app in Hsize. simpl in Hsize. lia. }
    clear Hsize. rewrite length_app in *. simpl in Hfuel.
    cbn [Algorithms.iterate Algorithms.insertion_inner_step].
    rewrite (proj2 (Z.ltb_lt 0 _)) by (simpl; lia).
    assert (Hj : Cxx.wrap (Z.of_nat (length l1 + length [x]) - 1)
                 = Z.of_nat (length l1)).
    { simpl. rewrite wrap_small; lia. }
    rewrite Hj, <- (app_assoc l1 [x]). simpl.
    rewrite vec_get_middle.
    destruct (ltb key x) eqn:Hlt.
    + replace (l1 ++ x :: y :: tl) with ((l1 ++ [x]) ++ y :: tl)
        by (rewrite <- app_assoc; reflexivity).
      replace (Z.of_nat (length l1 + 1)) with (Z.of_nat (length (l1 ++ [x])))
        by (rewrite length_app; reflexivity).
      rewrite vec_set_middle, <- app_assoc. simpl.
      destruct (IH x (x :: tl) fuel) as (l1a & l1b & y' & -> & Hrun & Hall & Hlast).
      { lia. }
      { rewrite length_app. simpl. lia. }
      exists l1a, (l1b ++ [x]), y'. rewrite Hrun, <- !app_assoc. simpl.
      split; [reflexivity |]. split; [reflexivity |].
      split; [| exact Hlast].
      apply Forall_app. split; [exact Hall |]. constructor; [exact Hlt |].
      constructor.
    + exists (l1 ++ [x]), [], y. rewrite app_nil_r, <- app_assoc. simpl.
      rewrite length_app. simpl.
      split; [reflexivity |]. split; [reflexivity |].
      split; [constructor |]. intros x0 Hx0. rewrite last_snoc in Hx0.
      congruence.
Qed.
Hypothesis ltb_asym : forall a b, ltb a b = true -> ltb b a = false.

(** One pass of the outer loop of [insertion_sort]: [key], the first
    element after the sorted part, is put into the sorted part. *)
Lemma insertion_outer_step_spec fuel pre key rest :
  (length pre < fuel)%nat ->
  Z.of_nat (length (pre ++ key :: rest)) < Cxx.size_t_modulus ->
  Sorted (Algorithms.not_after ltb) pre ->
  exists pre',
    Algorithms.insertion_outer_step ltb fuel
      (pre ++ key :: rest, Z.of_nat (length pre))
    = inl (pre' ++ rest, Z.of_nat (length pre')) /\
    length pre' = S (length pre) /\
    Sorted (Algorithms.not_after ltb) pre' /\
    pre ++ key :: rest ≡ₚ pre' ++ rest.
Proof.
  intros Hfuel Hsize Hsorted.
  destruct (insertion_inner_spec key pre key rest fuel Hfuel Hsize)
    as (l1a & l1b & y' & -> & Hrun & Hall & Hlast).
  exists (l1a ++ key :: l1b).
  unfold Algorithms.insertion_outer_step, Algorithms.vec_size.
  rewrite (proj2 (Z.ltb_lt _ _))
    by (rewrite (length_app (l1a ++ l1b)); simpl; lia).
  rewrite vec_get_middle, Hrun, vec_set_middle.
  rewrite wrap_small
    by (rewrite length_app in Hsize; simpl in Hsize; lia).
  rewrite <- !app_assoc. simpl.
  split; [f_equal; f_equal; rewrite !length_app; simpl; lia |].
  split; [rewrite !length_app; simpl; lia |].
  split.
  - apply Sorted_app_inv in Hsorted as [Ha Hb].
    apply Sorted_app_join; [exact Ha | |].
    + constructor; [exact Hb |].
      destruct l1b as [| b l1b]; constructor.
      apply Forall_cons in Hall as [Hb0 _]. apply ltb_asym. exact Hb0.
    + intros a b Ha0 Hb0. injection Hb0 as <-. apply (Hlast a Ha0).
  - rewrite <- Permutation_middle. symmetry.
    rewrite <- Permutation_middle. reflexivity.
Qed.

Lemma insertion_outer_loop_spec fuel rest : forall pre passes,
  (length rest < passes)%nat ->
  (length pre + length rest < fuel)%nat ->
  Z.of_nat (length (pre ++ rest)) < Cxx.size_t_modulus ->
  Sorted (Algorithms.not_after ltb) pre ->
  exists out,
    Algorithms.iterate passes (Algorithms.insertion_outer_step ltb fuel)
      (pre ++ rest, Z.of_nat (length pre))
    = Algorithms.Value out /\
    Sorted (Algorithms.not_after ltb) out /\
    pre ++ rest ≡ₚ out.
Proof.
  induction rest as [| key rest IH]; intros pre passes Hp Hfuel Hsize Hs;
    (destruct passes as [| passes]; [simpl in Hp; lia |]);
    cbn [Algorithms.iterate].
  - rewrite app_nil_r. unfold Algorithms.insertion_outer_step.
    unfold Algorithms.vec_size. rewrite Z.ltb_irrefl.
    exists pre. auto.
  - simpl in Hp, Hfuel.
    destruct (insertion_outer_step_spec fuel pre key rest ltac:(lia) Hsize Hs)
      as (pre' & -> & Hlen & Hs' & Hperm).
    destruct (IH pre' passes) as (out & Hrun & Hso & Hpo); try lia.
    { rewrite length_app in *. simpl in Hsize. lia. }
    { exact Hs'. }
    exists out. split; [exact Hrun |]. split; [exact Hso |].
    rewrite Hperm. exact Hpo.
Qed.

(** [insertion_sort] returns for every vector, once its loops are allowed
    more passes than the vector has elements, without ever indexing
    outside the vector.  What it leaves is a rearrangement of the input
    in which no element is less than the one before it.  Of [operator<]
    this asks only that [a < b] excludes [b < a]. *)
Theorem algorithms_insertion_sort_sorts data fuel :
  (length data < fuel)%nat ->
  Z.of_nat (length data) < Cxx.size_t_modulus ->
  exists out,
    Algorithms.insertion_sort ltb fuel data = Algorithms.Value out /\
    data ≡ₚ out /\
    Sorted (Algorithms.not_after ltb) out.
Proof.
  intros Hfuel Hsize. unfold Algorithms.insertion_sort.
  destruct data as [| x rest].
  - destruct fuel as [| fuel]; [simpl in Hfuel; lia |].
    exists []. repeat split; constructor.
  - destruct (insertion_outer_loop_spec fuel rest [x] fuel)
      as (out & Hrun & Hso & Hpo).
    + simpl in Hfuel. lia.
    + simpl in *. lia.
    + exact Hsize.
    + repeat constructor.
    + exists out. split; [exact Hrun |]. split; [exact Hpo | exact Hso].
Qed.
End SortLaws.

(** [algorithms_insertion_sort_sorts] at the integers 3, 1, 2. *)
Lemma algorithms_insertion_sort_sorts_witness :
  exists out,
    Algorithms.insertion_sort Z.ltb 4 [3; 1; 2] = Algorithms.Value out /\
    [3; 1; 2] ≡ₚ out /\
    Sorted (Algorithms.not_after Z.ltb) out.
Proof.
  apply (algorithms_insertion_sort_sorts Z.ltb).
  - intros a b H. apply Z.ltb_lt in H. apply Z.ltb_ge. lia.
  - simpl. lia.
  - reflexivity.
Defined.

Example insertion_sort_run :
  Algorithms.insertion_sort Z.ltb 6 [5; 2; 4; 1; 3]
  = Algorithms.Value [1; 2; 3; 4; 5].
Proof. vm_compute. reflexivity. Qed.

Section BubbleLaws.
Context {T : Type} (ltb : T -> T -> bool).
Implicit Types (data pre suf todo done tl : list T) (x y : T).

Hypothesis ltb_asym : forall a b, ltb a b = true -> ltb b a = false.
Hypothesis not_after_trans : forall a b c,
  Algorithms.not_after ltb a b -> Algorithms.not_after ltb b c ->
  Algorithms.not_after ltb a c.

Lemma vec_swap_adjacent done x y tl :
  Algorithms.vec_swap (done ++ x :: y :: tl)
    (Z.of_nat (length done)) (Z.of_nat (length done) + 1)
  = Some (done ++ y :: x :: tl).
Proof.
  unfold Algorithms.vec_swap.
  replace (Z.of_nat (length done) + 1) with (Z.of_nat (length (done ++ [x])))
    by (rewrite length_app; simpl; lia).
  rewrite vec_get_middle.
  replace (done ++ x :: y :: tl) with ((done ++ [x]) ++ y :: tl)
    by (rewrite <- app_assoc; reflexivity).
  rewrite vec_get_middle, <- app_assoc. simpl.
  rewrite vec_set_middle.
  replace (done ++ y :: y :: tl) with ((done ++ [y]) ++ y :: tl)
    by (rewrite <- app_assoc; reflexivity).
  replace (length (done ++ [x])) with (length (done ++ [y]))
    by (rewrite !length_app; reflexivity).
  rewrite vec_set_middle, <- app_assoc. reflexivity.
Qed.

Lemma bubble_inner_test done x todo suf :
  Z.of_nat (length (done ++ x :: todo ++ suf)) < Cxx.size_t_modulus ->
  Cxx.wrap (Z.of_nat (length done) + 1) = Z.of_nat (length done) + 1 /\
  (Cxx.wrap (Z.of_nat (length done) + 1)
   <? Cxx.wrap (Algorithms.vec_size (done ++ x :: todo ++ suf)
                - Z.of_nat (length suf)))
  = (0 <? Z.of_nat (length todo)).
Proof.
  intros Hsize. unfold Algorithms.vec_size in *.
  rewrite length_app in *. cbn [length] in *. rewrite length_app in *.
  rewrite !wrap_small by lia. split; [reflexivity |].
  destruct (Z.ltb_spec 0 (Z.of_nat (length todo)));
    [apply Z.ltb_lt | apply Z.ltb_ge]; lia.
Qed.

(** One pass of the inner loop of [bubble_sort] over the elements before
    [suf], from index [length done] on, carrying [x]: the largest element
    ends last, and a pass that reports no swap has changed nothing and
    has found the elements from [x] on in order. *)
Lemma bubble_inner_spec suf todo : forall done x swapped fuel,
  (length todo < fuel)%nat ->
  Z.of_nat (length (done ++ x :: todo ++ suf)) < Cxx.size_t_modulus ->
  Forall (fun e => Algorithms.not_after ltb e x) done ->
  exists out mx swapped',
    Algorithms.iterate fuel
      (Algorithms.bubble_inner_step ltb (Z.of_nat (length suf)))
      (done ++ x :: todo ++ suf, Z.of_nat (length done), swapped)
    = Algorithms.Value (out ++ mx :: suf, swapped') /\
    done ++ x :: todo ≡ₚ out ++ [mx] /\
    Forall (fun e => Algorithms.not_after ltb e mx) out /\
    (swapped' = false ->
     swapped = false /\ out ++ [mx] = done ++ x :: todo /\
     Sorted (Algorithms.not_after ltb) (x :: todo)).
Proof.
  induction todo as [| y todo IH]; intros done x swapped fuel Hfuel Hsize Hmax;
    (destruct fuel as [| fuel]; [simpl in Hfuel; lia |]);
    cbn [Algorithms.iterate]; unfold Algorithms.bubble_inner_step;
    destruct (bubble_inner_test done x _ suf Hsize) as [Hw Htest];
    rewrite Htest, ?Hw; clear Htest.
  - cbn [length Z.of_nat Z.ltb Z.compare].
    exists done, x, swapped. split; [reflexivity |].
    split; [reflexivity |]. split; [exact Hmax |].
    intros ->. repeat split. repeat constructor.
  - rewrite (proj2 (Z.ltb_lt _ _)) by (cbn [length]; lia).
    rewrite !length_app in Hsize. cbn [length] in Hsize.
    rewrite !length_app in Hsize. cbn [length] in Hsize.
    assert (Hgy : Algorithms.vec_get (done ++ x :: (y :: todo) ++ suf)
                    (Z.of_nat (length done) + 1) = Some y).
    { replace (Z.of_nat (length done) + 1)
        with (Z.of_nat (length (done ++ [x])))
        by (rewrite length_app; simpl; lia).
      replace (done ++ x :: (y :: todo) ++ suf)
        with ((done ++ [x]) ++ y :: todo ++ suf)
        by (rewrite <- app_assoc; reflexivity).
      apply vec_get_middle. }
    rewrite Hgy, vec_get_middle.
    destruct (ltb y x) eqn:Hlt.
    + cbn [app]. rewrite vec_swap_adjacent.
      replace (done ++ y :: x :: todo ++ suf)
        with ((done ++ [y]) ++ x :: todo ++ suf)
        by (rewrite <- app_assoc; reflexivity).
      replace (Z.of_nat (length done) + 1)
        with (Z.of_nat (length (done ++ [y])))
        by (rewrite length_app; simpl; lia).
      destruct (IH (done ++ [y]) x true fuel) as (out & mx & sw' & Hrun & Hp & Hm & Hno).
      { simpl in Hfuel. lia. }
      { rewrite !length_app. cbn [length]. rewrite ?length_app. lia. }
      { apply Forall_app. split; [exact Hmax |].
        constructor; [| constructor]. apply ltb_asym. exact Hlt. }
      exists out, mx, sw'. split; [exact Hrun |]. split.
      { rewrite <- Hp, <- app_assoc. simpl.
        apply Permutation_app_head. constructor. }
      split; [exact Hm |]. intros Hsw. destruct (Hno Hsw) as [Hc _].
      discriminate Hc.
    + replace (done ++ x :: (y :: todo) ++ suf)
        with ((done ++ [x]) ++ y :: todo ++ suf)
        by (rewrite <- app_assoc; reflexivity).
      replace (Z.of_nat (length done) + 1)
        with (Z.of_nat (length (done ++ [x])))
        by (rewrite length_app; simpl; lia).
      destruct (IH (done ++ [x]) y swapped fuel) as (out & mx & sw' & Hrun & Hp & Hm & Hno).
      { simpl in Hfuel. lia. }
      { rewrite !length_app. cbn [length]. rewrite ?length_app. lia. }
      { apply Forall_app. split.
        - eapply Forall_impl; [exact Hmax |]. intros e He.
          apply (not_after_trans e x y He). exact Hlt.
        - constructor; [exact Hlt | constructor]. }
      exists out, mx, sw'. split; [exact Hrun |]. split.
      { rewrite <- Hp, <- app_assoc. reflexivity. }
      split; [exact Hm |]. intros Hsw.
      destruct (Hno Hsw) as (Hs0 & Heq & Hsorted).
      split; [exact Hs0 |]. split.
      * rewrite Heq, <- app_assoc. reflexivity.
      * constructor; [exact Hsorted |]. constructor. exact Hlt.
Qed.
(** The outer loop of [bubble_sort] with [suf], the last [i] elements,
    in place: sorted, and after every element before them. *)
Lemma bubble_outer_loop_spec fuel passes : forall pre suf,
  (length pre < passes)%nat ->
  (length pre <= fuel)%nat ->
  Z.of_nat (length (pre ++ suf)) < Cxx.size_t_modulus ->
  Sorted (Algorithms.not_after ltb) suf ->
  Forall (fun e => forall h, head suf = Some h -> Algorithms.not_after ltb e h)
    pre ->
  exists out,
    Algorithms.iterate passes (Algorithms.bubble_outer_step ltb fuel)
      (pre ++ suf, Z.of_nat (length suf))
    = Algorithms.Value out /\
    Sorted (Algorithms.not_after ltb) out /\
    pre ++ suf ≡ₚ out.
Proof.
  induction passes as [| passes IH]; intros pre suf Hp Hfuel Hsize Hs Hpre;
    [lia |].
  cbn [Algorithms.iterate]. unfold Algorithms.bubble_outer_step.
  unfold Algorithms.vec_size. destruct pre as [| x todo].
  - simpl. rewrite Z.ltb_irrefl. exists suf. auto.
  - rewrite (proj2 (Z.ltb_lt _ _)) by (rewrite length_app; simpl; lia).
    destruct (bubble_inner_spec suf todo [] x false fuel)
      as (out & mx & sw & Hrun & Hperm & Hmax & Hno).
    { simpl in Hfuel. lia. }
    { exact Hsize. }
    { constructor. }
    change (Z.of_nat (length (@nil T))) with 0 in Hrun.
    cbn [app] in Hrun. cbn [app]. rewrite Hrun.
    cbn [app] in Hperm, Hno.
    assert (Hlen : length out = length todo).
    { apply Permutation_length in Hperm. rewrite length_app in Hperm.
      simpl in Hperm. lia. }
    assert (Hmx : forall h, head suf = Some h -> Algorithms.not_after ltb mx h).
    { assert (Hin : mx ∈ x :: todo).
      { rewrite Hperm. apply elem_of_app. right. apply list_elem_of_singleton.
        reflexivity. }
      rewrite Forall_forall in Hpre. exact (Hpre mx Hin). }
    destruct sw; cbn [negb].
    + rewrite wrap_small
        by (rewrite length_app in Hsize; simpl in Hsize; lia).
      replace (Z.of_nat (length suf) + 1) with (Z.of_nat (length (mx :: suf)))
        by (simpl; lia).
      destruct (IH out (mx :: suf)) as (res & Hres & Hsres & Hpres).
      { simpl in Hp. lia. }
      { simpl in Hfuel. lia. }
      { rewrite length_app in *. simpl in *. lia. }
      { constructor; [exact Hs |]. destruct suf as [| h suf]; constructor.
        apply Hmx. reflexivity. }
      { eapply Forall_impl; [exact Hmax |]. intros e He h Hh.
        injection Hh as <-. exact He. }
      exists res. split; [exact Hres |]. split; [exact Hsres |].
      rewrite <- Hpres.
      change (x :: todo ++ suf) with ((x :: todo) ++ suf).
      rewrite Hperm, <- app_assoc. reflexivity.
    + destruct (Hno eq_refl) as (_ & Heq & Hsorted).
      exists (out ++ mx :: suf).
      replace (out ++ mx :: suf) with ((x :: todo) ++ suf)
        by (rewrite <- Heq, <- app_assoc; reflexivity).
      split; [reflexivity |]. split; [| reflexivity].
      apply Sorted_app_join; [exact Hsorted | exact Hs |].
      intros a b Ha Hb. rewrite Forall_forall in Hpre.
      apply (Hpre a); [| exact Hb].
      apply list_elem_of_lookup. rewrite last_lookup in Ha. eauto.
Qed.

(** [bubble_sort] returns for every vector, once its loops are allowed
    more passes than the vector has elements, without ever indexing
    outside the vector (the empty vector included: [data.size() - i]
    is only computed for [i < data.size()]).  What it leaves is a
    rearrangement of the input in which no element is less than the one
    before it.  Of [operator<] this asks that [a < b] excludes [b < a]
    and that "not less than" is transitive. *)
Theorem algorithms_bubble_sort_sorts data fuel :
  (length data < fuel)%nat ->
  Z.of_nat (length data) < Cxx.size_t_modulus ->
  exists out,
    Algorithms.bubble_sort ltb fuel data = Algorithms.Value out /\
    data ≡ₚ out /\
    Sorted (Algorithms.not_after ltb) out.
Proof.
  intros Hfuel Hsize. unfold Algorithms.bubble_sort.
  destruct (bubble_outer_loop_spec fuel fuel data [])
    as (out & Hrun & Hso & Hpo).
  - exact Hfuel.
  - lia.
  - rewrite app_nil_r. exact Hsize.
  - constructor.
  - apply Forall_forall. intros e _ h Hh. discriminate Hh.
  - rewrite app_nil_r in *. exists out. auto.
Qed.
End BubbleLaws.

(** [algorithms_bubble_sort_sorts] at the integers 3, 1, 2. *)
Lemma algorithms_bubble_sort_sorts_witness :
  exists out,
    Algorithms.bubble_sort Z.ltb 4 [3; 1; 2] = Algorithms.Value out /\
    [3; 1; 2] ≡ₚ out /\
    Sorted (Algorithms.not_after Z.ltb) out.
Proof.
  apply (algorithms_bubble_sort_sorts Z.ltb).
  - intros a b H. apply Z.ltb_lt in H. apply Z.ltb_ge. lia.
  - unfold Algorithms.not_after. intros a b c H1 H2.
    apply Z.ltb_ge in H1, H2. apply Z.ltb_ge. lia.
  - simpl. lia.
  - reflexivity.
Defined.

Example bubble_sort_run :
  Algorithms.bubble_sort Z.ltb 6 [5; 2; 4; 1; 3]
  = Algorithms.Value [1; 2; 3; 4; 5]
  /\ Algorithms.bubble_sort Z.ltb 1 ([] : list Z) = Algorithms.Value [].
Proof. vm_compute. split; reflexivity. Qed.
